(** * FartStemmer: a shallow embedding of [fartstemmer.py]

    The stemmer is a Porter stemmer over Python strings.  A Python [str] is
    a sequence of Unicode code points, so a word is a [list N]; indices are
    Python integers ([Z]), negative ones counting from the end of the
    string.

    A function of the stemmer fails in two ways: an index outside the
    string raises [IndexError], and a call made when the interpreter has
    no frame left for it raises [RecursionError].  Every function that
    can raise lives in the option monad, where [None] is an exception of
    either kind, and has a first argument [depth], the number of frames
    left for the calls it makes. *)

From stdpp Require Import gmap list strings.
From Stdlib Require Import ZArith Lia Ascii.

Local Open Scope Z_scope.

(** ** Python strings *)

Abbreviation char := N (only parsing).
Abbreviation str := (list N) (only parsing).

(** The code point of an ASCII character, and the string of an ASCII
    literal. *)
Definition chr (a : ascii) : char := N_of_ascii a.

Definition lit (s : string) : str := chr <$> String.list_ascii_of_string s.

Coercion lit : string >-> list.

Global Arguments chr : simpl never.
Global Arguments lit : simpl never.

(** [c == 'a'] for an ASCII literal. *)
Definition is_chr (c : char) (a : ascii) : bool := bool_decide (c = chr a).

(** [len(s)] *)
Definition len (s : str) : Z := Z.of_nat (length s).

(** [s[i]]: a negative index counts from the end; an index outside
    [-len(s) .. len(s)-1] raises [IndexError]. *)
Definition index (s : str) (i : Z) : option char :=
  if 0 <=? i then s !! Z.to_nat i
  else if 0 <=? len s + i then s !! Z.to_nat (len s + i)
  else None.

(** The position a slice bound denotes: a negative bound counts from the
    end, and the result is clipped to [0 .. len(s)]. *)
Definition bound (s : str) (k : Z) : nat :=
  Z.to_nat (Z.min (Z.max (if k <? 0 then k + len s else k) 0) (len s)).

(** [s[lo:hi]], either bound possibly omitted. *)
Definition slice (s : str) (lo hi : option Z) : str :=
  let a := from_option (bound s) 0%nat lo in
  let b := from_option (bound s) (length s) hi in
  take (b - a) (drop a s).

(** [s[:-k]] for a literal [k > 0], the slice every stage uses to cut a
    suffix. *)
Definition chop (k : Z) (s : str) : str := slice s None (Some (- k)).

(** [s.endswith(suf)] *)
Definition endswith (s suf : str) : bool :=
  (length suf <=? length s)%nat
  && bool_decide (drop (length s - length suf) s = suf).

(** ** Calls

    [call depth f] is a call of a Python function made with [depth]
    frames left: with none left it raises [RecursionError]; otherwise
    the function runs, [f], with one frame fewer for its own calls. *)
Definition call {A : Type} (depth : nat) (f : nat → option A) : option A :=
  match depth with
  | O => None
  | S depth => f depth
  end.

(** ** The stemmer's tables *)

(** [self.vowels] *)
Definition vowels : gset char :=
  {[ chr "a"; chr "e"; chr "i"; chr "o"; chr "u" ]}.

(** ** [_cons]

    The recursion on [i - 1] is a call: it takes a frame for every [y]
    of a run. *)
Fixpoint _cons (depth : nat) (word : str) (i : Z) : option bool :=
  c ← index word i;
  if bool_decide (c ∈ vowels) then Some false
  else if is_chr c "y" then
    if i =? 0 then Some true
    else negb <$> call depth (λ depth, _cons depth word (i - 1))
  else Some true.

(** ** [_m]

    The three [while True] loops of [_m] as one loop with a phase: the
    leading consonants, a vowel run (the first inner loop), a consonant run
    (the second inner loop).  Each iteration either returns at [i > j] or
    moves [i] one further, so [j + 2] iterations ([fuel]) are enough. *)
Inductive phase := Leading | VowelRun | ConsonantRun.

Fixpoint m_loop (depth fuel : nat) (ph : phase) (word : str) (j i n : Z)
  : option Z :=
  match fuel with
  | O => None
  | S fuel =>
      if j <? i then Some n
      else
        c ← call depth (λ depth, _cons depth word i);
        match ph with
        | Leading =>
            if negb c then m_loop depth fuel VowelRun word j (i + 1) n
            else m_loop depth fuel Leading word j (i + 1) n
        | VowelRun =>
            if (c : bool)
            then m_loop depth fuel ConsonantRun word j (i + 1) (n + 1)
            else m_loop depth fuel VowelRun word j (i + 1) n
        | ConsonantRun =>
            if negb c then m_loop depth fuel VowelRun word j (i + 1) n
            else m_loop depth fuel ConsonantRun word j (i + 1) n
        end
  end.

Definition _m (depth : nat) (word : str) (j : Z) : option Z :=
  m_loop depth (S (Z.to_nat (j + 1))) Leading word j 0 0.

(** ** The shape predicates *)

Fixpoint vowel_scan (depth : nat) (stem : str) (range : list Z)
  : option bool :=
  match range with
  | [] => Some false
  | i :: range =>
      c ← call depth (λ depth, _cons depth stem i);
      if negb c then Some true else vowel_scan depth stem range
  end.

Definition _vowelinstem (depth : nat) (stem : str) : option bool :=
  vowel_scan depth stem (seqZ 0 (len stem)).

Definition _doublec (depth : nat) (word : str) : option bool :=
  if len word <? 2 then Some false
  else
    a ← index word (-1);
    b ← index word (-2);
    if bool_decide (a ≠ b) then Some false
    else call depth (λ depth, _cons depth word (len word - 1)).

Definition _cvc (depth : nat) (word : str) (i : Z) : option bool :=
  if i =? 0 then Some false
  else if i =? 1 then
    c0 ← call depth (λ depth, _cons depth word 0);
    if negb c0 then call depth (λ depth, _cons depth word 1)
    else Some false
  else
    c ← call depth (λ depth, _cons depth word i);
    if negb c then Some false
    else
      c1 ← call depth (λ depth, _cons depth word (i - 1));
      if (c1 : bool) then Some false
      else
        c2 ← call depth (λ depth, _cons depth word (i - 2));
        if negb c2 then Some false
        else
          ch ← index word i;
          if is_chr ch "w" || is_chr ch "x" || is_chr ch "y" then Some false
          else Some true.

(** ** Stage 1ab

    [_step1ab] is three statements in sequence: the plural endings, the
    [ied]/[eed]/[ed]/[ing] chain, which also sets [ed_or_ing_trimmed], and
    the block run when that flag is set. *)
Definition step1ab_plural (word : str) : option str :=
  last ← index word (-1);
  if is_chr last "s" then
    if endswith word "sses" then Some (chop 2 word)
    else if endswith word "ies" then
      if len word =? 4 then Some (chop 1 word) else Some (chop 2 word)
    else
      prev ← index word (-2);
      if negb (is_chr prev "s") then Some (chop 1 word) else Some word
  else Some word.

Definition step1ab_verbal (depth : nat) (word : str)
  : option (str * bool) :=
  if endswith word "ied" then
    if len word =? 4 then Some (chop 1 word, false)
    else Some (chop 2 word, false)
  else if endswith word "eed" then
    n ← call depth (λ depth, _m depth word (len word - 4));
    if 0 <? n then Some (chop 1 word, false) else Some (word, false)
  else
    ed ← (if endswith word "ed"
          then call depth (λ depth, _vowelinstem depth (chop 2 word))
          else Some false);
    if (ed : bool) then Some (chop 2 word, true)
    else
      ing ← (if endswith word "ing"
             then call depth (λ depth, _vowelinstem depth (chop 3 word))
             else Some false);
      if (ing : bool) then Some (chop 3 word, true) else Some (word, false).

Definition step1ab_trimmed (depth : nat) (word : str) : option str :=
  if endswith word "at" || endswith word "bl" || endswith word "iz"
  then Some (word ++ "e")
  else
    d ← call depth (λ depth, _doublec depth word);
    if (d : bool) then
      last ← index word (-1);
      if negb (bool_decide (last ∈ [chr "l"; chr "s"; chr "z"]))
      then Some (chop 1 word)
      else Some word
    else
      n ← call depth (λ depth, _m depth word (len word - 1));
      if n =? 1 then
        c ← call depth (λ depth, _cvc depth word (len word - 1));
        if (c : bool) then Some (word ++ "e") else Some word
      else Some word.

Definition _step1ab (depth : nat) (word : str) : option str :=
  word ← step1ab_plural word;
  '(word, ed_or_ing_trimmed) ← step1ab_verbal depth word;
  if (ed_or_ing_trimmed : bool) then step1ab_trimmed depth word
  else Some word.

(** ** Stage 1c *)
Definition _step1c (depth : nat) (word : str) : option str :=
  last ← index word (-1);
  if is_chr last "y" && (2 <? len word) then
    c ← call depth (λ depth, _cons depth word (len word - 2));
    if (c : bool) then Some (chop 1 word ++ "i") else Some word
  else Some word.

(** ** Stages 2, 3 and 4

    Their rules are conditional expressions on the measure of the word up
    to index [len(word) - k]: [new if self._m(word, len(word)-k) > t else
    word], and [new if self._m(word, len(word)-k) else word], where an
    integer is true when it is not 0. *)
Definition if_m_gt (depth : nat) (t : Z) (word : str) (k : Z) (new : str)
  : option str :=
  n ← call depth (λ depth, _m depth word (len word - k));
  Some (if t <? n then new else word).

Definition if_m (depth : nat) (word : str) (k : Z) (new : str)
  : option str :=
  n ← call depth (λ depth, _m depth word (len word - k));
  Some (if n =? 0 then word else new).

(** ** Stage 2

    [step2_body] is the body of [_step2], with the function it calls on
    the shortened word of the [alli] rule as [self_step2]. *)
Definition step2_body (self_step2 : str → option str) (depth : nat)
  (word : str) : option str :=
  if len word <=? 1 then Some word
  else
    ch ← index word (-2);
    if is_chr ch "a" then
      if endswith word "ational" then
        if_m_gt depth 0 word 8 (chop 7 word ++ "ate")
      else if endswith word "tional" then
        if_m_gt depth 0 word 7 (chop 2 word)
      else Some word
    else if is_chr ch "c" then
      if endswith word "enci" then
        if_m_gt depth 0 word 5 (chop 4 word ++ "ence")
      else if endswith word "anci" then
        if_m_gt depth 0 word 5 (chop 4 word ++ "ance")
      else Some word
    else if is_chr ch "e" then
      if endswith word "izer" then if_m_gt depth 0 word 5 (chop 1 word)
      else Some word
    else if is_chr ch "l" then
      if endswith word "bli" then
        if_m_gt depth 0 word 4 (chop 3 word ++ "ble")
      else if endswith word "alli" then
        n ← call depth (λ depth, _m depth word (len word - 5));
        if 0 <? n then self_step2 (chop 2 word) else Some word
      else if endswith word "fulli" then if_m depth word 6 (chop 2 word)
      else if endswith word "entli" then if_m depth word 6 (chop 2 word)
      else if endswith word "eli" then if_m depth word 4 (chop 2 word)
      else if endswith word "ousli" then if_m depth word 6 (chop 2 word)
      else Some word
    else if is_chr ch "o" then
      if endswith word "ization" then if_m depth word 8 (chop 7 word ++ "ize")
      else if endswith word "ation" then
        if_m depth word 6 (chop 5 word ++ "ate")
      else if endswith word "ator" then if_m depth word 5 (chop 4 word ++ "ate")
      else Some word
    else if is_chr ch "s" then
      if endswith word "alism" then if_m depth word 6 (chop 3 word)
      else if endswith word "ness" then
        if endswith word "iveness" then if_m depth word 8 (chop 4 word)
        else if endswith word "fulness" then if_m depth word 8 (chop 4 word)
        else if endswith word "ousness" then if_m depth word 8 (chop 4 word)
        else Some word
      else Some word
    else if is_chr ch "t" then
      if endswith word "aliti" then if_m depth word 6 (chop 3 word)
      else if endswith word "iviti" then
        if_m depth word 6 (chop 5 word ++ "ive")
      else if endswith word "biliti" then
        if_m depth word 7 (chop 6 word ++ "ble")
      else Some word
    else if is_chr ch "g" then
      if endswith word "logi" then if_m depth word 4 (chop 1 word)
      else Some word
    else Some word.

(** [_step2]: the function it calls in the [alli] rule is itself, and
    the call takes a frame. *)
Fixpoint _step2 (depth : nat) (word : str) : option str :=
  step2_body (λ word, call depth (λ depth, _step2 depth word)) depth word.

(** ** Stage 3 *)
Definition _step3 (depth : nat) (word : str) : option str :=
  ch ← index word (-1);
  if is_chr ch "e" then
    if endswith word "icate" then if_m depth word 6 (chop 3 word)
    else if endswith word "ative" then if_m depth word 6 (chop 5 word)
    else if endswith word "alize" then if_m depth word 6 (chop 3 word)
    else Some word
  else if is_chr ch "i" then
    if endswith word "iciti" then if_m depth word 6 (chop 3 word)
    else Some word
  else if is_chr ch "l" then
    if endswith word "ical" then if_m depth word 5 (chop 2 word)
    else if endswith word "ful" then if_m depth word 4 (chop 3 word)
    else Some word
  else if is_chr ch "s" then
    if endswith word "ness" then if_m depth word 5 (chop 4 word)
    else Some word
  else Some word.

(** ** Stage 4 *)
Definition _step4 (depth : nat) (word : str) : option str :=
  if len word <=? 1 then Some word
  else
    ch ← index word (-2);
    if is_chr ch "a" then
      if endswith word "al" then if_m_gt depth 1 word 3 (chop 2 word)
      else Some word
    else if is_chr ch "c" then
      if endswith word "ance" then if_m_gt depth 1 word 5 (chop 4 word)
      else if endswith word "ence" then if_m_gt depth 1 word 5 (chop 4 word)
      else Some word
    else if is_chr ch "e" then
      if endswith word "er" then if_m_gt depth 1 word 3 (chop 2 word)
      else Some word
    else if is_chr ch "i" then
      if endswith word "ic" then if_m_gt depth 1 word 3 (chop 2 word)
      else Some word
    else if is_chr ch "l" then
      if endswith word "able" then if_m_gt depth 1 word 5 (chop 4 word)
      else if endswith word "ible" then if_m_gt depth 1 word 5 (chop 4 word)
      else Some word
    else if is_chr ch "n" then
      if endswith word "ant" then if_m_gt depth 1 word 4 (chop 3 word)
      else if endswith word "ement" then if_m_gt depth 1 word 6 (chop 5 word)
      else if endswith word "ment" then if_m_gt depth 1 word 5 (chop 4 word)
      else if endswith word "ent" then if_m_gt depth 1 word 4 (chop 3 word)
      else Some word
    else if is_chr ch "o" then
      if endswith word "sion" || endswith word "tion" then
        if_m_gt depth 1 word 4 (chop 3 word)
      else if endswith word "ou" then if_m_gt depth 1 word 3 (chop 2 word)
      else Some word
    else if is_chr ch "s" then
      if endswith word "ism" then if_m_gt depth 1 word 4 (chop 3 word)
      else Some word
    else if is_chr ch "t" then
      if endswith word "ate" then if_m_gt depth 1 word 4 (chop 3 word)
      else if endswith word "iti" then if_m_gt depth 1 word 4 (chop 3 word)
      else Some word
    else if is_chr ch "u" then
      if endswith word "ous" then if_m_gt depth 1 word 4 (chop 3 word)
      else Some word
    else if is_chr ch "v" then
      if endswith word "ive" then if_m_gt depth 1 word 4 (chop 3 word)
      else Some word
    else if is_chr ch "z" then
      if endswith word "ize" then if_m_gt depth 1 word 4 (chop 3 word)
      else Some word
    else Some word.

(** ** Stage 5: its two [if] statements in sequence. *)
Definition step5_e (depth : nat) (word : str) : option str :=
  last ← index word (-1);
  if is_chr last "e" then
    a ← call depth (λ depth, _m depth word (len word - 1));
    if 1 <? a then Some (chop 1 word)
    else if a =? 1 then
      c ← call depth (λ depth, _cvc depth word (len word - 2));
      if negb c then Some (chop 1 word) else Some word
    else Some word
  else Some word.

Definition step5_ll (depth : nat) (word : str) : option str :=
  if endswith word "ll" then
    n ← call depth (λ depth, _m depth word (len word - 1));
    Some (if 1 <? n then chop 1 word else word)
  else Some word.

Definition _step5 (depth : nat) (word : str) : option str :=
  word ← step5_e depth word;
  step5_ll depth word.

(** ** The irregular forms and [stem_word] *)

(** The dict literal of [__init__], in the order it is written. *)
Definition irregular_forms : list (str * list str) :=
  [ (lit "sky", [lit "sky"; lit "skies"]);
    (lit "die", [lit "dying"]);
    (lit "lie", [lit "lying"]);
    (lit "tie", [lit "tying"]);
    (lit "news", [lit "news"]);
    (lit "inning", [lit "innings"; lit "inning"]);
    (lit "outing", [lit "outings"; lit "outing"]);
    (lit "canning", [lit "cannings"; lit "canning"]);
    (lit "howe", [lit "howe"]);
    (lit "proceed", [lit "proceed"]);
    (lit "exceed", [lit "exceed"]);
    (lit "succeed", [lit "succeed"]) ].

(** [self.pool], filled by the two nested [for] loops. *)
Definition pool : gmap str str :=
  foldl
    (λ pool '(key, vals), foldl (λ pool val, <[val := key]> pool) pool vals)
    ∅ irregular_forms.

(** The six stages in the order [stem_word] runs them, each a call. *)
Definition pipeline (depth : nat) (word : str) : option str :=
  word ← call depth (λ depth, _step1ab depth word);
  word ← call depth (λ depth, _step1c depth word);
  word ← call depth (λ depth, _step2 depth word);
  word ← call depth (λ depth, _step3 depth word);
  word ← call depth (λ depth, _step4 depth word);
  call depth (λ depth, _step5 depth word).

(** [stem_word(p, i, j)], with the stages it runs as [stages]; [j = None]
    is the default of the argument. *)
Definition stem_word_with (stages : str → option str)
  (p : str) (i : Z) (j : option Z) : option str :=
  let word :=
    match j with
    | None => if i =? 0 then p else slice p (Some i) (Some (len p - 1 + 1))
    | Some j => slice p (Some i) (Some (j + 1))
    end in
  match pool !! word with
  | Some stem => Some stem
  | None => if len word <=? 2 then Some word else stages word
  end.

Definition stem_word (depth : nat) (p : str) (i : Z) (j : option Z)
  : option str :=
  stem_word_with (pipeline depth) p i j.

(** [stem_word(p)] *)
Definition stem (depth : nat) (p : str) : option str :=
  stem_word depth p 0 None.

(** ** [fart]

    [str.lower] is Python's, not the stemmer's: the method is modelled for
    any [lower]. *)
Section Fart.

Variable lower : str → str.

Definition fart (depth : nat) (word : str) : option str :=
  stem ← call depth
           (λ depth, stem_word depth (lower word) 0 (Some (len word - 1)));
  Some (if bool_decide (stem ≠ lower word) then stem ++ "fart" else word).

End Fart.

(** ** The module's [fart(sentence)]

    The function at the end of the module has the name of the method; it
    is [fart_sentence] here.  [sentence.split()] cuts the sentence at the
    runs of whitespace and returns the pieces between them, none of them
    empty; which characters are whitespace is Python's to say
    ([isspace]).  [split_from] scans the sentence with the piece read so
    far, last character first, in [piece]. *)
Section Sentence.

Variable lower : str → str.
Variable isspace : char → bool.

Fixpoint split_from (piece : str) (sentence : str) : list str :=
  match sentence with
  | [] => if decide (piece = []) then [] else [reverse piece]
  | c :: sentence =>
      if isspace c then
        if decide (piece = []) then split_from [] sentence
        else reverse piece :: split_from [] sentence
      else split_from (c :: piece) sentence
  end.

(** [sentence.split()] *)
Definition split (sentence : str) : list str := split_from [] sentence.

(** [sep.join(res)] *)
Fixpoint join (sep : str) (res : list str) : str :=
  match res with
  | [] => []
  | [word] => word
  | word :: res => word ++ sep ++ join sep res
  end.

(** [FartStemmer()] runs [__init__], a call; so is [stemmer.fart(word)]
    for every word. *)
Definition fart_sentence (depth : nat) (sentence : str) : option str :=
  _ ← call depth (λ _, Some pool);
  res ← mapM (λ word, call depth (λ depth, fart lower depth word))
          (split sentence);
  Some (join " " res).

End Sentence.


(** * The notions of the spec *)

(** The spec's reading of [_cons]: a CharacterClass per position. *)
Inductive CharacterClass := Vowel | Consonant.

Definition classify (depth : nat) (word : str) (i : Z)
  : option CharacterClass :=
  (λ c : bool, if c then Consonant else Vowel) <$> _cons depth word i.

(** The class of the character at [i]: what [_cons] answers when it has
    the frames to answer. *)
Definition has_class (word : str) (i : Z) (class : CharacterClass) : Prop :=
  ∃ depth, classify depth word i = Some class.

(** The lengths of the runs of [y] that end at each position of the
    word, after a run of [run] before it; and the longest of them. *)
Fixpoint yruns (run : nat) (word : str) : list nat :=
  match word with
  | [] => []
  | c :: word =>
      let run := if is_chr c "y" then S run else O in
      run :: yruns run word
  end.

Definition longest_yrun (word : str) : nat := max_list (yruns 0 word).

(** With [depth] frames [_cons] returns at every position of the
    word. *)
Definition classifies (depth : nat) (word : str) : Prop :=
  ∀ i, 0 ≤ i < len word → is_Some (_cons depth word i).

(** [o'] is [o] run with more frames: whatever [o] returns, [o'] returns
    too. *)
Definition below {A : Type} (o o' : option A) : Prop :=
  ∀ r, o = Some r → o' = Some r.

(** The sixteen entries surface → stem, as the spec lists them. *)
Definition irregular_table : list (str * str) :=
  [ (lit "sky", lit "sky"); (lit "skies", lit "sky");
    (lit "dying", lit "die"); (lit "lying", lit "lie");
    (lit "tying", lit "tie"); (lit "news", lit "news");
    (lit "innings", lit "inning"); (lit "inning", lit "inning");
    (lit "outings", lit "outing"); (lit "outing", lit "outing");
    (lit "cannings", lit "canning"); (lit "canning", lit "canning");
    (lit "howe", lit "howe"); (lit "proceed", lit "proceed");
    (lit "exceed", lit "exceed"); (lit "succeed", lit "succeed") ].

(** The classes of the characters of [word[0..j]], in order. *)
Definition prefix_classes (depth : nat) (word : str) (j : Z)
  : option (list CharacterClass) :=
  mapM (classify depth word) (seqZ 0 (j + 1)).

(** The form [C](VC)^m[V] of the spec: [c] leading Consonants, then one
    block per pair of [blocks], a run of Vowels followed by a run of
    Consonants, then [v] trailing Vowels.  A pair holds the lengths of
    the two runs less one, so no run of a block is empty. *)
Definition block (r : nat * nat) : list CharacterClass :=
  replicate (S r.1) Vowel ++ replicate (S r.2) Consonant.

Definition form (c : nat) (blocks : list (nat * nat)) (v : nat)
  : list CharacterClass :=
  replicate c Consonant ++ (blocks ≫= block) ++ replicate v Vowel.

(** The places where a Vowel is followed at once by a Consonant. *)
Fixpoint vc_boundaries (cs : list CharacterClass) : nat :=
  match cs with
  | [] => 0
  | Vowel :: (Consonant :: _) as rest => S (vc_boundaries rest)
  | _ :: rest => vc_boundaries rest
  end.

(** What the loop of [_m] adds to [n] on the classes still ahead of [i],
    by phase. *)
Fixpoint count (ph : phase) (cs : list CharacterClass) : nat :=
  match cs with
  | [] => 0
  | Vowel :: rest =>
      match ph with
      | Leading | VowelRun | ConsonantRun => count VowelRun rest
      end
  | Consonant :: rest =>
      match ph with
      | Leading => count Leading rest
      | VowelRun => S (count ConsonantRun rest)
      | ConsonantRun => count ConsonantRun rest
      end
  end.

(** What a stage returns on [w]: a word, not empty and no longer than
    [w], that [_cons] still classifies with [depth] frames. *)
Definition shorter (depth : nat) (w : str) (o : option str) : Prop :=
  ∃ r, o = Some r ∧ (1 ≤ length r ≤ length w)%nat ∧ classifies depth r.

(** What a stage that only strips returns on [w]: a beginning of [w],
    not empty. *)
Definition stripped (w : str) (o : option str) : Prop :=
  ∃ r, o = Some r ∧ r `prefix_of` w ∧ r ≠ [].

(** ASCII lowercasing, a [lower] that keeps the length of every token. *)
Definition ascii_lower (word : str) : str :=
  (λ c : N, if (65 <=? c)%N && (c <=? 90)%N then (c + 32)%N else c) <$> word.

(** The token "İstanbul": U+0130, capital I with a dot above, then
    "stanbul".  Python 3 lowercases U+0130 to the two code points U+0069
    U+0307, so the lowercased token is one code point longer. *)
Definition Istanbul : str := 304%N :: lit "stanbul".
Definition istanbul : str := 105%N :: 775%N :: lit "stanbul".

(** A [lower] that agrees with Python 3 on "İstanbul". *)
Definition lower_Istanbul (w : str) : str :=
  if decide (w = Istanbul) then istanbul else w.

(** * Properties *)

(** ** Strings *)

Lemma len_nonneg (s : str) : 0 ≤ len s.
Proof. unfold len. lia. Qed.

Lemma len_app (s t : str) : len (s ++ t) = len s + len t.
Proof. unfold len. rewrite length_app. lia. Qed.

Lemma index_nonneg (s : str) (i : Z) :
  0 ≤ i → index s i = s !! Z.to_nat i.
Proof. intros Hi. unfold index. case_match; [done | lia]. Qed.

Lemma index_neg (s : str) (k : Z) :
  0 < k ≤ len s → index s (- k) = s !! (length s - Z.to_nat k)%nat.
Proof.
  intros Hk. unfold index, len in *.
  destruct (Z.leb_spec 0 (- k)); [lia |].
  destruct (Z.leb_spec 0 (Z.of_nat (length s) + - k)); [| lia].
  f_equal. lia.
Qed.

Lemma index_is_Some (s : str) (i : Z) :
  - len s ≤ i < len s → is_Some (index s i).
Proof.
  intros Hi. unfold index, len in *.
  repeat case_match; try lia; apply lookup_lt_is_Some; lia.
Qed.

Lemma chop_take (k : Z) (s : str) :
  0 < k → chop k s = take (length s - Z.to_nat k) s.
Proof.
  intros Hk. unfold chop, slice, bound, len. simpl.
  destruct (Z.ltb_spec (- k) 0); [| lia].
  rewrite Nat.sub_0_r. f_equal. lia.
Qed.

Lemma length_chop (k : Z) (s : str) :
  0 < k → length (chop k s) = (length s - Z.to_nat k)%nat.
Proof. intros Hk. rewrite chop_take, length_take by done. lia. Qed.

Lemma chop_app (k : Z) (s t : str) :
  k = len t → 0 < k → chop k (s ++ t) = s.
Proof.
  intros -> Hk. rewrite chop_take by done. unfold len.
  rewrite length_app, Nat2Z.id.
  replace (length s + length t - length t)%nat with (length s) by lia.
  by rewrite take_app_length.
Qed.

Lemma endswith_suffix (s suf : str) :
  endswith s suf = true ↔ suf `suffix_of` s.
Proof.
  unfold endswith. rewrite andb_true_iff, Nat.leb_le, bool_decide_eq_true.
  split.
  - intros [_ H]. exists (take (length s - length suf) s).
    symmetry. etrans; [| apply (take_drop (length s - length suf))].
    by rewrite H.
  - intros [k ->]. rewrite length_app. split; [lia |].
    replace (length k + length suf - length suf)%nat with (length k) by lia.
    by rewrite drop_app_length.
Qed.

Lemma endswith_app (s suf : str) : endswith (s ++ suf) suf = true.
Proof. apply endswith_suffix. by exists s. Qed.

Lemma endswith_length (s suf : str) :
  endswith s suf = true → (length suf ≤ length s)%nat.
Proof.
  unfold endswith. rewrite andb_true_iff, Nat.leb_le. by intros [? _].
Qed.

(** When the suffix is no longer than the tail that is known, the tail
    decides. *)
Lemma endswith_tail (s t suf : str) :
  (length suf ≤ length t)%nat → endswith (s ++ t) suf = endswith t suf.
Proof.
  intros Hl. unfold endswith. rewrite length_app.
  replace (length suf <=? length s + length t)%nat with true
    by (symmetry; apply Nat.leb_le; lia).
  replace (length suf <=? length t)%nat with true
    by (symmetry; apply Nat.leb_le; lia).
  replace (length s + length t - length suf)%nat
    with (length s + (length t - length suf))%nat by lia.
  by rewrite drop_app_add.
Qed.


(** ** Calls and frames *)

Lemma below_refl {A : Type} (o : option A) : below o o.
Proof. by intros r. Qed.

Lemma below_None {A : Type} (o : option A) : below None o.
Proof. by intros r. Qed.

Lemma below_bind {A B : Type} (o o' : option A) (f f' : A → option B) :
  below o o' → (∀ x, below (f x) (f' x)) → below (o ≫= f) (o' ≫= f').
Proof.
  intros Ho Hf r. destruct o as [x |]; [| done].
  rewrite (Ho x eq_refl). simpl. apply Hf.
Qed.

Lemma below_fmap {A B : Type} (o o' : option A) (f : A → B) :
  below o o' → below (f <$> o) (f <$> o').
Proof.
  intros Ho r. destruct o as [x |]; [| done]. by rewrite (Ho x eq_refl).
Qed.

Lemma below_call {A : Type} (d d' : nat) (f : nat → option A) :
  (d ≤ d')%nat →
  (∀ e e', (e < d)%nat → (e ≤ e')%nat → below (f e) (f e')) →
  below (call d f) (call d' f).
Proof.
  intros Hd Hf. destruct d as [| d]; [apply below_None |].
  destruct d' as [| d']; [lia |]. simpl. apply Hf; lia.
Qed.

Lemma below_mapM {A B : Type} (f g : A → option B) (l : list A) :
  (∀ x, below (f x) (g x)) → below (mapM f l) (mapM g l).
Proof.
  intros Hfg. induction l as [| x l IH]; [apply below_refl |].
  simpl. apply below_bind; [apply Hfg |]. intros y.
  apply below_bind; [apply IH |]. intros ys. apply below_refl.
Qed.

Lemma call_S {A : Type} (depth : nat) (f : nat → option A) :
  call (S depth) f = f depth.
Proof. done. Qed.

(** ** The classifier *)

Lemma y_not_vowel : chr "y" ∉ vowels.
Proof.
  intros H. apply (bool_decide_eq_true_2 _) in H. vm_compute in H.
  discriminate H.
Qed.

Lemma cons_eq (depth : nat) (word : str) (i : Z) :
  _cons depth word i
  = c ← index word i;
    if bool_decide (c ∈ vowels) then Some false
    else if is_chr c "y" then
      if i =? 0 then Some true
      else negb <$> call depth (λ depth, _cons depth word (i - 1))
    else Some true.
Proof. by destruct depth. Qed.

(** A result of [_cons] does not change with more frames. *)
Lemma cons_mono (word : str) (d d' : nat) (i : Z) :
  (d ≤ d')%nat → below (_cons d word i) (_cons d' word i).
Proof.
  revert d' i. induction d as [| d IH]; intros d' i Hd; rewrite !cons_eq;
    (apply below_bind; [apply below_refl |]); intros c;
    repeat case_match; try apply below_refl; apply below_fmap.
  - apply below_None.
  - destruct d' as [| d']; [lia |]. simpl. apply IH. lia.
Qed.

Create HintDb mono.

#[local] Hint Resolve cons_mono : mono.

(** More frames, same result: one step of the proof, by the shape of
    the two sides. *)
Ltac mono_step :=
  first
    [ apply below_refl
    | apply below_None
    | solve [eauto with mono]
    | apply below_bind; [| intros ?]
    | apply below_fmap
    | apply below_call; [assumption | intros ? ? ? ?]
    | lazymatch goal with
      | |- below (if ?b then _ else _) (if ?b then _ else _) => destruct b
      end ].

Ltac mono := repeat mono_step.

Lemma cons_index_error (depth : nat) (word : str) (i : Z) :
  len word ≤ i → _cons depth word i = None.
Proof.
  intros Hi. pose proof (len_nonneg word). rewrite cons_eq.
  rewrite index_nonneg by lia. rewrite lookup_ge_None_2; [done |].
  unfold len in *. lia.
Qed.

Lemma index_app_l (word rest : str) (i : Z) :
  0 ≤ i < len word → index (word ++ rest) i = index word i.
Proof.
  intros Hi. rewrite !index_nonneg by lia. apply lookup_app_l.
  unfold len in Hi. lia.
Qed.

(** What follows an index does not change the answer of [_cons]
    there. *)
Lemma cons_app (depth : nat) (word rest : str) (i : Z) :
  0 ≤ i < len word → _cons depth (word ++ rest) i = _cons depth word i.
Proof.
  revert i. induction depth as [| depth IH]; intros i Hi; rewrite !cons_eq;
    rewrite index_app_l by done; [done |].
  destruct (index word i) as [c |]; [simpl | done].
  destruct (bool_decide (c ∈ vowels)); [done |].
  destruct (is_chr c "y"); [| done].
  destruct (Z.eqb_spec i 0); [done |]. simpl. by rewrite IH by lia.
Qed.

(** The two [y] cases of [_cons]. *)
Lemma cons_y_first (depth : nat) (word : str) :
  index word 0 = Some (chr "y") → _cons depth word 0 = Some true.
Proof.
  intros H. rewrite cons_eq, H. simpl.
  rewrite bool_decide_eq_false_2 by apply y_not_vowel. done.
Qed.

Lemma cons_y_later (depth : nat) (word : str) (i : Z) :
  i ≠ 0 → index word i = Some (chr "y") →
  _cons depth word i
  = negb <$> call depth (λ depth, _cons depth word (i - 1)).
Proof.
  intros Hi H. rewrite cons_eq, H. simpl.
  rewrite bool_decide_eq_false_2 by apply y_not_vowel.
  change (is_chr (chr "y") "y") with true. cbv iota.
  destruct (Z.eqb_spec i 0); [done | done].
Qed.

(** A character that is not [y] is classified without a call. *)
Lemma cons_not_y (depth : nat) (word : str) (i : Z) (c : char) :
  index word i = Some c → c ≠ chr "y" → is_Some (_cons depth word i).
Proof.
  intros H Hc. rewrite cons_eq, H. simpl.
  destruct (bool_decide (c ∈ vowels)); [by eexists |].
  unfold is_chr. rewrite bool_decide_eq_false_2 by done. by eexists.
Qed.

(** ** Runs of [y] and the frames [_cons] takes *)

Lemma length_yruns (run : nat) (word : str) :
  length (yruns run word) = length word.
Proof.
  revert run. induction word as [| c word IH]; intros run; [done |].
  simpl. by rewrite IH.
Qed.

Lemma yruns_lookup_S (word : str) (run k : nat) (c : char) :
  word !! S k = Some c →
  ∃ r, yruns run word !! k = Some r
       ∧ yruns run word !! S k = Some (if is_chr c "y" then S r else O).
Proof.
  revert run k. induction word as [| c0 word IH]; intros run k Hc; [done |].
  destruct k as [| k].
  - destruct word as [| c1 word]; [done |]. injection Hc as ->.
    simpl. eauto.
  - simpl. apply IH. exact Hc.
Qed.

(** [_cons] returns at a position when it has a frame for every [y] of
    the run that ends there. *)
Lemma cons_total_run (word : str) (run k : nat) :
  ∀ (depth r : nat),
    yruns run word !! k = Some r → (r ≤ depth)%nat →
    is_Some (_cons depth word (Z.of_nat k)).
Proof.
  induction k as [| k IH]; intros depth r Hr Hd.
  - assert (is_Some (word !! 0%nat)) as [c Hc].
    { apply lookup_lt_is_Some. apply lookup_lt_Some in Hr.
      by rewrite length_yruns in Hr. }
    rewrite cons_eq, index_nonneg, Nat2Z.id, Hc by lia. simpl.
    repeat case_match; by eexists.
  - assert (is_Some (word !! S k)) as [c Hc].
    { apply lookup_lt_is_Some. apply lookup_lt_Some in Hr.
      by rewrite length_yruns in Hr. }
    destruct (yruns_lookup_S word run k c Hc) as (rk & Hrk & Hr').
    rewrite Hr' in Hr. injection Hr as <-.
    rewrite cons_eq, index_nonneg, Nat2Z.id, Hc by lia. simpl.
    destruct (bool_decide (c ∈ vowels)); [by eexists |].
    destruct (is_chr c "y"); [| by eexists].
    destruct (Z.eqb_spec (Z.of_nat (S k)) 0); [lia |].
    destruct depth as [| depth]; [lia |]. simpl.
    replace (Z.of_nat (S k) - 1) with (Z.of_nat k) by lia.
    destruct (IH depth rk Hrk ltac:(lia)) as [b ->]. by eexists.
Qed.

Lemma classifies_yrun (depth : nat) (word : str) :
  (longest_yrun word ≤ depth)%nat → classifies depth word.
Proof.
  intros Hd i Hi.
  assert (is_Some (yruns 0 word !! Z.to_nat i)) as [r Hr].
  { apply lookup_lt_is_Some. rewrite length_yruns. unfold len in Hi. lia. }
  rewrite <- (Z2Nat.id i) by lia.
  apply (cons_total_run word 0 (Z.to_nat i) depth r Hr).
  apply list_elem_of_lookup_2, max_list_elem_of_le in Hr.
  unfold longest_yrun in Hd. lia.
Qed.

Lemma classifies_mono (d d' : nat) (word : str) :
  (d ≤ d')%nat → classifies d word → classifies d' word.
Proof.
  intros Hd H i Hi. destruct (H i Hi) as [b Hb].
  exists b. by apply (cons_mono word d d').
Qed.

Lemma classifies_app_l (depth : nat) (word rest : str) :
  classifies depth (word ++ rest) → classifies depth word.
Proof.
  intros H i Hi. rewrite <- (cons_app depth word rest) by done.
  apply H. rewrite len_app. pose proof (len_nonneg rest). lia.
Qed.

Lemma classifies_chop (depth : nat) (k : Z) (word : str) :
  0 < k → classifies depth word → classifies depth (chop k word).
Proof.
  intros Hk H. rewrite chop_take by done.
  apply (classifies_app_l _ _ (drop (length word - Z.to_nat k) word)).
  by rewrite take_drop.
Qed.

(** Appending characters other than [y] asks no frame more. *)
Lemma classifies_app (depth : nat) (word rest : str) :
  classifies depth word → Forall (λ c, c ≠ chr "y") rest →
  classifies depth (word ++ rest).
Proof.
  intros H Hrest i Hi. destruct (decide (i < len word)) as [Hlt | Hge].
  - rewrite cons_app by lia. apply H. lia.
  - rewrite len_app in Hi.
    assert (is_Some (rest !! (Z.to_nat i - length word)%nat)) as [c Hc].
    { apply lookup_lt_is_Some. unfold len in *. lia. }
    apply (cons_not_y _ _ _ c).
    + rewrite index_nonneg by lia.
      rewrite lookup_app_r by (unfold len in *; lia). done.
    + rewrite Forall_forall in Hrest. apply Hrest.
      by eapply list_elem_of_lookup_2.
Qed.

Lemma classify_Vowel (depth : nat) (word : str) (i : Z) :
  classify depth word i = Some Vowel ↔ _cons depth word i = Some false.
Proof.
  unfold classify. destruct (_cons depth word i) as [[] |]; simpl;
    split; intros H; done.
Qed.

Lemma classify_Consonant (depth : nat) (word : str) (i : Z) :
  classify depth word i = Some Consonant ↔ _cons depth word i = Some true.
Proof.
  unfold classify. destruct (_cons depth word i) as [[] |]; simpl;
    split; intros H; done.
Qed.

Lemma classify_mono (word : str) (d d' : nat) (i : Z) :
  (d ≤ d')%nat → below (classify d word i) (classify d' word i).
Proof. intros Hd. unfold classify. mono. Qed.

(** A character has one class. *)
Lemma has_class_unique (word : str) (i : Z) (a b : CharacterClass) :
  has_class word i a → has_class word i b → a = b.
Proof.
  intros [d Ha] [d' Hb].
  apply (classify_mono word d (d `max` d')) in Ha; [| lia].
  apply (classify_mono word d' (d `max` d')) in Hb; [| lia].
  congruence.
Qed.

Lemma has_class_y_first (word : str) :
  index word 0 = Some (chr "y") → has_class word 0 Consonant.
Proof.
  intros H. exists 0%nat. apply classify_Consonant. by apply cons_y_first.
Qed.

Lemma has_class_y_later (word : str) (i : Z) (class : CharacterClass) :
  i ≠ 0 → index word i = Some (chr "y") →
  has_class word i class
  ↔ has_class word (i - 1)
      match class with Vowel => Consonant | Consonant => Vowel end.
Proof.
  intros Hi Hy. unfold has_class, classify. split.
  - intros [d H]. rewrite (cons_y_later d word i Hi Hy) in H.
    destruct d as [| d]; [done |]. simpl in H. exists d.
    destruct (_cons d word (i - 1)) as [[] |]; destruct class; done.
  - intros [d H]. exists (S d). rewrite (cons_y_later (S d) word i Hi Hy).
    simpl. destruct (_cons d word (i - 1)) as [[] |]; destruct class; done.
Qed.

(** C1, as the spec states it, fails at position 0: the word "y" has a
    [y] at index 0 and [_cons] answers [True] there with any number of
    frames, so the [y] is a Consonant, and the equivalence "Vowel exactly
    when i = 0 or the preceding character is Consonant" is false at this
    input. *)
Lemma C1_y_at_0_is_consonant :
  index "y" 0 = Some (chr "y")
  ∧ (∀ depth, classify depth "y" 0 = Some Consonant)
  ∧ ¬ (has_class "y" 0 Vowel
       ↔ (0 = 0 ∨ has_class "y" (0 - 1) Consonant)).
Proof.
  split; [reflexivity |]. split; [by intros [] |].
  intros [_ H]. specialize (H (or_introl eq_refl)).
  assert (has_class "y" 0 Consonant) as H' by (by exists 0%nat).
  by pose proof (has_class_unique _ _ _ _ H H').
Qed.

(** C1 (amended): for every word and every index [i] inside it with
    [word[i] = 'y'], the [y] classifies as Vowel exactly when [i > 0] and
    the character at [i - 1] classifies as Consonant, and as Consonant
    exactly when [i = 0] or the character at [i - 1] classifies as Vowel.
    The class is what [_cons] answers whenever it answers, and it
    answers when it has a frame for every [y] of the longest run of [y]
    in the word; with fewer frames it can raise [RecursionError]. *)
Theorem C1_y_classification (depth : nat) (word : str) (i : Z) :
  0 ≤ i < len word →
  index word i = Some (chr "y") →
  (has_class word i Vowel
   ↔ 0 < i ∧ has_class word (i - 1) Consonant)
  ∧ (has_class word i Consonant
     ↔ i = 0 ∨ (0 < i ∧ has_class word (i - 1) Vowel))
  ∧ (∀ class, classify depth word i = Some class → has_class word i class)
  ∧ ((longest_yrun word ≤ depth)%nat → is_Some (classify depth word i)).
Proof.
  intros Hi Hy. split; [| split; [| split]].
  - destruct (decide (i = 0)) as [-> | Hne].
    + split; [| intros [? _]; lia]. intros H.
      by pose proof (has_class_unique _ _ _ _ H (has_class_y_first _ Hy)).
    + rewrite (has_class_y_later word i Vowel Hne Hy).
      split; [intros H; split; [lia | done] | by intros [_ H]].
  - destruct (decide (i = 0)) as [-> | Hne].
    + split; [by left |]. intros _. by apply has_class_y_first.
    + rewrite (has_class_y_later word i Consonant Hne Hy).
      split; [intros H; right; split; [lia | done] |].
      intros [? | [_ H]]; [lia | done].
  - intros class H. by exists depth.
  - intros Hd. unfold classify.
    destruct (classifies_yrun depth word Hd i Hi) as [b ->]. by eexists.
Qed.

(** The amended C1 at a concrete input: the final [y] of "by". *)
Lemma C1_y_classification_witness :
  (has_class "by" 1 Vowel
   ↔ 0 < 1 ∧ has_class "by" (1 - 1) Consonant)
  ∧ (has_class "by" 1 Consonant
     ↔ 1 = 0 ∨ (0 < 1 ∧ has_class "by" (1 - 1) Vowel))
  ∧ (∀ class, classify 1 "by" 1 = Some class → has_class "by" 1 class)
  ∧ ((longest_yrun "by" ≤ 1)%nat → is_Some (classify 1 "by" 1)).
Proof.
  apply (C1_y_classification 1 "by" 1).
  - split; [lia | vm_compute; reflexivity].
  - vm_compute. reflexivity.
Defined.

(** A run of [y] longer than the frames left makes [_cons] fail: with
    1000 frames, at the end of 1100 [y]. *)
Example cons_recursion_error :
  _cons 1000 (replicate 1100 (chr "y")) 1099 = None
  ∧ _cons 1099 (replicate 1100 (chr "y")) 1099 = Some false.
Proof. split; vm_compute; reflexivity. Qed.

(** ** More frames never change a result *)

Lemma m_loop_mono (word : str) (j : Z) (d d' fuel : nat) :
  (d ≤ d')%nat →
  ∀ ph i n,
    below (m_loop d fuel ph word j i n) (m_loop d' fuel ph word j i n).
Proof.
  intros Hd. induction fuel as [| fuel IH]; intros ph i n;
    [apply below_refl |].
  simpl. mono. destruct ph; mono.
Qed.

Lemma m_mono (word : str) (d d' : nat) (j : Z) :
  (d ≤ d')%nat → below (_m d word j) (_m d' word j).
Proof. intros Hd. by apply m_loop_mono. Qed.

Lemma vowel_scan_mono (stem : str) (d d' : nat) (range : list Z) :
  (d ≤ d')%nat →
  below (vowel_scan d stem range) (vowel_scan d' stem range).
Proof. intros Hd. induction range as [| i range IH]; simpl; mono. Qed.

Lemma vowelinstem_mono (stem : str) (d d' : nat) :
  (d ≤ d')%nat → below (_vowelinstem d stem) (_vowelinstem d' stem).
Proof. intros Hd. by apply vowel_scan_mono. Qed.

Lemma doublec_mono (word : str) (d d' : nat) :
  (d ≤ d')%nat → below (_doublec d word) (_doublec d' word).
Proof. intros Hd. unfold _doublec. mono. Qed.

Lemma cvc_mono (word : str) (d d' : nat) (i : Z) :
  (d ≤ d')%nat → below (_cvc d word i) (_cvc d' word i).
Proof. intros Hd. unfold _cvc. mono. Qed.

#[local] Hint Resolve m_mono vowelinstem_mono doublec_mono cvc_mono : mono.

Lemma step1ab_verbal_mono (word : str) (d d' : nat) :
  (d ≤ d')%nat → below (step1ab_verbal d word) (step1ab_verbal d' word).
Proof. intros Hd. unfold step1ab_verbal. mono. Qed.

Lemma step1ab_trimmed_mono (word : str) (d d' : nat) :
  (d ≤ d')%nat → below (step1ab_trimmed d word) (step1ab_trimmed d' word).
Proof. intros Hd. unfold step1ab_trimmed. mono. Qed.

Lemma step1ab_mono (word : str) (d d' : nat) :
  (d ≤ d')%nat → below (_step1ab d word) (_step1ab d' word).
Proof.
  intros Hd. unfold _step1ab. mono.
  - by apply step1ab_verbal_mono.
  - destruct x0 as [w []]; [by apply step1ab_trimmed_mono |].
    apply below_refl.
Qed.

Lemma step1c_mono (word : str) (d d' : nat) :
  (d ≤ d')%nat → below (_step1c d word) (_step1c d' word).
Proof. intros Hd. unfold _step1c. mono. Qed.

Lemma if_m_gt_mono (t : Z) (word : str) (k : Z) (new : str) (d d' : nat) :
  (d ≤ d')%nat → below (if_m_gt d t word k new) (if_m_gt d' t word k new).
Proof. intros Hd. unfold if_m_gt. mono. Qed.

Lemma if_m_mono (word : str) (k : Z) (new : str) (d d' : nat) :
  (d ≤ d')%nat → below (if_m d word k new) (if_m d' word k new).
Proof. intros Hd. unfold if_m. mono. Qed.

#[local] Hint Resolve if_m_gt_mono if_m_mono : mono.

Lemma step2_eq (depth : nat) (word : str) :
  _step2 depth word
  = step2_body (λ word, call depth (λ depth, _step2 depth word)) depth word.
Proof. by destruct depth. Qed.

Lemma step2_body_mono (self self' : str → option str) (word : str)
  (d d' : nat) :
  (d ≤ d')%nat → (∀ w, below (self w) (self' w)) →
  below (step2_body self d word) (step2_body self' d' word).
Proof. intros Hd Hself. unfold step2_body. mono. Qed.

Lemma step2_mono (d : nat) :
  ∀ (d' : nat) (word : str),
    (d ≤ d')%nat → below (_step2 d word) (_step2 d' word).
Proof.
  induction (lt_wf d) as [d _ IH]. intros d' word Hd.
  rewrite !step2_eq. apply step2_body_mono; [done |]. intros w.
  apply below_call; [done |]. intros e e' He He'. by apply IH.
Qed.

Lemma step3_mono (word : str) (d d' : nat) :
  (d ≤ d')%nat → below (_step3 d word) (_step3 d' word).
Proof. intros Hd. unfold _step3. mono. Qed.

Lemma step4_mono (word : str) (d d' : nat) :
  (d ≤ d')%nat → below (_step4 d word) (_step4 d' word).
Proof. intros Hd. unfold _step4. mono. Qed.

Lemma step5_mono (word : str) (d d' : nat) :
  (d ≤ d')%nat → below (_step5 d word) (_step5 d' word).
Proof. intros Hd. unfold _step5, step5_e, step5_ll. mono. Qed.

#[local] Hint Resolve step1ab_mono step1c_mono step2_mono step3_mono
  step4_mono step5_mono : mono.

Lemma pipeline_mono (word : str) (d d' : nat) :
  (d ≤ d')%nat → below (pipeline d word) (pipeline d' word).
Proof. intros Hd. unfold pipeline. mono. Qed.

Lemma stem_word_mono (p : str) (i : Z) (j : option Z) (d d' : nat) :
  (d ≤ d')%nat → below (stem_word d p i j) (stem_word d' p i j).
Proof.
  intros Hd. unfold stem_word, stem_word_with.
  destruct (pool !! _); [apply below_refl |].
  destruct (_ <=? 2); [apply below_refl |]. by apply pipeline_mono.
Qed.

Lemma stem_mono (p : str) (d d' : nat) :
  (d ≤ d')%nat → below (stem d p) (stem d' p).
Proof. apply stem_word_mono. Qed.

#[local] Hint Resolve stem_word_mono : mono.

Lemma fart_mono (lower : str → str) (word : str) (d d' : nat) :
  (d ≤ d')%nat → below (fart lower d word) (fart lower d' word).
Proof. intros Hd. unfold fart. mono. Qed.

#[local] Hint Resolve fart_mono : mono.

Lemma fart_sentence_mono (lower : str → str) (isspace : char → bool)
  (sentence : str) (d d' : nat) :
  (d ≤ d')%nat →
  below (fart_sentence lower isspace d sentence)
    (fart_sentence lower isspace d' sentence).
Proof.
  intros Hd. unfold fart_sentence.
  apply below_bind;
    [apply below_call; [done | intros; apply below_refl] |].
  intros _. apply below_bind; [| intros ?; apply below_refl].
  apply below_mapM. intros w. mono.
Qed.

(** ** The Irregular-Form Table *)

Lemma pool_table : pool = list_to_map irregular_table.
Proof. vm_compute. reflexivity. Qed.

Lemma pool_lookup (w s : str) :
  pool !! w = Some s ↔ (w, s) ∈ irregular_table.
Proof.
  rewrite pool_table. symmetry. apply elem_of_list_to_map.
  apply (bool_decide_unpack _). vm_compute. exact I.
Qed.

(** No surface form is shorter than three characters. *)
Lemma pool_short (w : str) : len w ≤ 2 → pool !! w = None.
Proof.
  intros Hw. destruct (pool !! w) as [s |] eqn:E; [| done].
  apply pool_lookup in E. unfold irregular_table in E.
  repeat (apply elem_of_cons in E as [E | E];
          [injection E as -> _; vm_compute in Hw; by destruct Hw |]).
  by apply elem_of_nil in E.
Qed.

Lemma stem_word_with_whole (stages : str → option str) (w : str) :
  stem_word_with stages w 0 None
  = match pool !! w with
    | Some stem => Some stem
    | None => if len w <=? 2 then Some w else stages w
    end.
Proof. reflexivity. Qed.

(** C2: the surface forms of [self.pool] are exactly the sixteen entries
    of the spec's table, and for each of them [stem_word] returns the
    mapped stem, whatever the stages of the pipeline would do and
    however few frames are left: the token is returned before any stage
    is reached. *)
Theorem C2_exception_precedence :
  (∀ w s : str, pool !! w = Some s ↔ (w, s) ∈ irregular_table)
  ∧ length irregular_table = 16%nat
  ∧ (∀ (depth : nat) (w s : str),
       (w, s) ∈ irregular_table → stem depth w = Some s)
  ∧ (∀ (stages : str → option str) (w s : str),
       (w, s) ∈ irregular_table → stem_word_with stages w 0 None = Some s).
Proof.
  split; [apply pool_lookup |]. split; [reflexivity |].
  assert (∀ (stages : str → option str) (w s : str),
             (w, s) ∈ irregular_table →
             stem_word_with stages w 0 None = Some s) as H.
  { intros stages w s Hin%pool_lookup.
    by rewrite stem_word_with_whole, Hin. }
  split; [| exact H]. intros depth w s. apply H.
Qed.

(** C3: a word of length at most 2, the empty word included, is returned
    as it is, whatever the stages of the pipeline would do and however
    few frames are left: neither a stage nor the classifier is
    reached. *)
Theorem C3_short_word_bypass (w : str) :
  len w ≤ 2 →
  (∀ depth : nat, stem depth w = Some w)
  ∧ ∀ stages : str → option str, stem_word_with stages w 0 None = Some w.
Proof.
  intros Hw.
  assert (∀ stages : str → option str,
             stem_word_with stages w 0 None = Some w) as H.
  { intros stages. rewrite stem_word_with_whole, pool_short by done.
    destruct (Z.leb_spec (len w) 2); [done | lia]. }
  split; [intros depth; apply H | exact H].
Qed.

(** C3 at the empty word. *)
Lemma C3_short_word_bypass_witness :
  (∀ depth : nat, stem depth "" = Some (lit ""))
  ∧ ∀ stages : str → option str,
      stem_word_with stages "" 0 None = Some (lit "").
Proof. apply (C3_short_word_bypass ""). vm_compute. discriminate. Defined.

(** ** Concrete scenarios *)

(** A result computed with [d] frames is the result with any number of
    frames from [d] on, and the only result with any number of
    frames. *)
Lemma stem_from (d depth : nat) (w r : str) :
  stem d w = Some r → (d ≤ depth)%nat → stem depth w = Some r.
Proof. intros H Hd. by apply (stem_mono w d depth). Qed.

Lemma stem_only (d depth : nat) (w r r' : str) :
  stem d w = Some r → stem depth w = Some r' → r' = r.
Proof.
  intros H H'.
  apply (stem_mono w d (d `max` depth)) in H; [| lia].
  apply (stem_mono w depth (d `max` depth)) in H'; [| lia].
  congruence.
Qed.

(** C4, as the spec states it, fails: the stem of "ties" is not "ti",
    with any number of frames. *)
Lemma C4_ties_is_not_ti :
  (∀ depth : nat, stem depth "ties" ≠ Some (lit "ti"))
  ∧ stem 3 "ties" = Some (lit "tie").
Proof.
  assert (stem 3 "ties" = Some (lit "tie")) as H
    by (vm_compute; reflexivity).
  split; [| exact H]. intros depth H'.
  by pose proof (stem_only _ _ _ _ _ H H').
Qed.

(** C4 (amended): the stem of "ties" is "tie", as soon as three frames
    are left for the calls down to [_cons].  Stage 1ab drops only the [s]
    of a four-letter word in [ies], and no later stage changes "tie":
    its measure is 0, so stage 5 keeps the final [e]. *)
Theorem C4_stem_ties (depth : nat) :
  (3 ≤ depth)%nat →
  stem depth "ties" = Some (lit "tie")
  ∧ _step1ab depth "ties" = Some (lit "tie")
  ∧ _m depth "tie" (len "tie" - 1) = Some 0
  ∧ _step5 depth "tie" = Some (lit "tie").
Proof.
  intros Hd. split; [| split; [| split]].
  - apply (stem_from 3); [vm_compute; reflexivity | done].
  - apply (step1ab_mono "ties" 3 depth); [done | vm_compute; reflexivity].
  - apply (m_mono "tie" 3 depth); [done | vm_compute; reflexivity].
  - apply (step5_mono "tie" 3 depth); [done | vm_compute; reflexivity].
Qed.

(** C4 with the 1000 frames of CPython's default limit. *)
Lemma C4_stem_ties_witness :
  stem 1000 "ties" = Some (lit "tie")
  ∧ _step1ab 1000 "ties" = Some (lit "tie")
  ∧ _m 1000 "tie" (len "tie" - 1) = Some 0
  ∧ _step5 1000 "tie" = Some (lit "tie").
Proof. apply (C4_stem_ties 1000). lia. Defined.

(** C5, as the spec states it, fails: the stem of "agreed" is not
    "agree", with any number of frames. *)
Lemma C5_agreed_is_not_agree :
  (∀ depth : nat, stem depth "agreed" ≠ Some (lit "agree"))
  ∧ stem 3 "agreed" = Some (lit "agre").
Proof.
  assert (stem 3 "agreed" = Some (lit "agre")) as H
    by (vm_compute; reflexivity).
  split; [| exact H]. intros depth H'.
  by pose proof (stem_only _ _ _ _ _ H H').
Qed.

(** C5 (amended): stage 1ab turns "agreed" into "agree", and the stem of
    "agreed" is "agre", as soon as three frames are left: in stage 5 the
    measure of "agree" is 1 and [_cvc] is false at its last but one
    character, so the final [e] is dropped. *)
Theorem C5_stem_agreed (depth : nat) :
  (3 ≤ depth)%nat →
  stem depth "agreed" = Some (lit "agre")
  ∧ _step1ab depth "agreed" = Some (lit "agree")
  ∧ _m depth "agree" (len "agree" - 1) = Some 1
  ∧ _cvc depth "agree" (len "agree" - 2) = Some false
  ∧ _step5 depth "agree" = Some (lit "agre").
Proof.
  intros Hd. split; [| split; [| split; [| split]]].
  - apply (stem_from 3); [vm_compute; reflexivity | done].
  - apply (step1ab_mono "agreed" 3 depth); [done | vm_compute; reflexivity].
  - apply (m_mono "agree" 3 depth); [done | vm_compute; reflexivity].
  - apply (cvc_mono "agree" 3 depth); [done | vm_compute; reflexivity].
  - apply (step5_mono "agree" 3 depth); [done | vm_compute; reflexivity].
Qed.

(** C5 with the 1000 frames of CPython's default limit. *)
Lemma C5_stem_agreed_witness :
  stem 1000 "agreed" = Some (lit "agre")
  ∧ _step1ab 1000 "agreed" = Some (lit "agree")
  ∧ _m 1000 "agree" (len "agree" - 1) = Some 1
  ∧ _cvc 1000 "agree" (len "agree" - 2) = Some false
  ∧ _step5 1000 "agree" = Some (lit "agre").
Proof. apply (C5_stem_agreed 1000). lia. Defined.

(** ** Stage 2 and its [alli] rule *)

(** Evaluate the tests on literals that a symbolic word leaves behind. *)
Ltac eval_lits :=
  repeat match goal with
    | |- context [is_chr (chr ?a) ?b] =>
        let v := eval vm_compute in (is_chr (chr a) b) in
        change (is_chr (chr a) b) with v
    | |- context [endswith (lit ?a) (lit ?b)] =>
        let v := eval vm_compute in (endswith (lit a) (lit b)) in
        change (endswith (lit a) (lit b)) with v
    | |- context [length (lit ?a)] =>
        let v := eval vm_compute in (length (lit a)) in
        change (length (lit a)) with v
    | |- context [len (lit ?a)] =>
        let v := eval vm_compute in (len (lit a)) in
        change (len (lit a)) with v
    end;
  cbv iota.

Lemma index_app_lit (x : str) (k : Z) (t : string) (c : char) :
  index (lit t) k = Some c → k < 0 → index (x ++ lit t) k = Some c.
Proof.
  intros H Hk. unfold index in *. pose proof (len_nonneg x).
  destruct (Z.leb_spec 0 k); [lia |].
  destruct (Z.leb_spec 0 (len (lit t) + k)); [| done].
  rewrite len_app.
  destruct (Z.leb_spec 0 (len x + len (lit t) + k)); [| lia].
  rewrite lookup_app_r by (unfold len in *; lia).
  rewrite <- H. f_equal. unfold len in *. lia.
Qed.

Lemma lit_alli : lit "alli" = lit "al" ++ lit "li".
Proof. reflexivity. Qed.

Lemma chop_alli (x : str) : chop 2 (x ++ "alli") = x ++ "al".
Proof. rewrite lit_alli, app_assoc. by apply chop_app. Qed.

(** On a word in [alli] the body of [_step2] reaches the [alli] rule. *)
Lemma step2_body_alli (self_step2 : str → option str) (depth : nat)
  (x : str) :
  step2_body self_step2 depth (x ++ "alli")
  = n ← call depth
          (λ depth, _m depth (x ++ "alli") (len (x ++ "alli") - 5));
    if 0 <? n then self_step2 (x ++ "al") else Some (x ++ "alli").
Proof.
  unfold step2_body.
  destruct (Z.leb_spec (len (x ++ "alli")) 1) as [H | _].
  { rewrite len_app in H. pose proof (len_nonneg x).
    change (len "alli") with 4 in H. lia. }
  rewrite (index_app_lit x (-2) "alli" (chr "l")) by done. simpl.
  rewrite !endswith_tail by (vm_compute; lia).
  eval_lits. by rewrite chop_alli.
Qed.

(** On a word in [al] the body of [_step2] makes no recursive call. *)
Lemma step2_body_al (self1 self2 : str → option str) (depth : nat)
  (x : str) :
  step2_body self1 depth (x ++ "al") = step2_body self2 depth (x ++ "al").
Proof.
  unfold step2_body.
  destruct (Z.leb_spec (len (x ++ "al")) 1) as [H | _]; [done |].
  rewrite (index_app_lit x (-2) "al" (chr "a")) by done. simpl.
  by eval_lits.
Qed.

(** C6, as the spec states it, fails: "radicalli" ends in [alli] and the
    measure before the suffix is 2, yet the word stage 2 goes on with is
    "radical", which does not end in [all], and the result differs from
    stage 2 of "radicall". *)
Lemma C6_alli_does_not_end_in_all :
  endswith "radicalli" "alli" = true
  ∧ _m 1000 "radicalli" (len "radicalli" - 5) = Some 2
  ∧ chop 2 "radicalli" = lit "radical"
  ∧ endswith (chop 2 "radicalli") "all" = false
  ∧ _step2 1000 "radicalli" = Some (lit "radical")
  ∧ _step2 1000 "radicalli" ≠ _step2 1000 "radicall".
Proof.
  repeat split; try (vm_compute; reflexivity). vm_compute. discriminate.
Qed.

(** C6 (amended): for every word ending in [alli] whose part before the
    suffix has measure greater than 0, stage 2 drops the last two
    characters, so that the word ends in [al], and its result is that of
    stage 2 applied again to the shortened word, in a call of its own:
    with one frame fewer. *)
Theorem C6_step2_alli (depth : nat) (x : str) (n : Z) :
  _m depth (x ++ "alli") (len (x ++ "alli") - 5) = Some n →
  0 < n →
  chop 2 (x ++ "alli") = x ++ "al"
  ∧ _step2 (S depth) (x ++ "alli") = _step2 depth (chop 2 (x ++ "alli")).
Proof.
  intros Hm Hn. split; [apply chop_alli |].
  rewrite chop_alli, (step2_eq (S depth)), step2_body_alli.
  unfold call. rewrite Hm. simpl.
  destruct (Z.ltb_spec 0 n); [done | lia].
Qed.

(** The amended C6 at "radicalli". *)
Lemma C6_step2_alli_witness :
  chop 2 (lit "radic" ++ "alli") = lit "radic" ++ "al"
  ∧ _step2 2 (lit "radic" ++ "alli")
    = _step2 1 (chop 2 (lit "radic" ++ "alli")).
Proof.
  apply (C6_step2_alli 1 "radic" 2); [vm_compute; reflexivity | lia].
Defined.

(** ** The measure *)

Lemma count_vc_boundaries (cs : list CharacterClass) :
  count Leading cs = vc_boundaries cs
  ∧ count ConsonantRun cs = vc_boundaries cs
  ∧ count VowelRun cs = vc_boundaries (Vowel :: cs).
Proof.
  induction cs as [| [] cs (IH1 & IH2 & IH3)]; [done | |]; simpl in *.
  - rewrite IH3. by destruct cs as [| [] ?].
  - by rewrite IH1, IH2.
Qed.

Lemma vc_boundaries_length (cs : list CharacterClass) :
  (2 * vc_boundaries cs ≤ length cs)%nat.
Proof.
  enough ((2 * vc_boundaries (Vowel :: cs) ≤ S (length cs))%nat
          ∧ (2 * vc_boundaries cs ≤ length cs)%nat) as [_ H]; [done |].
  induction cs as [| [] cs [IH1 IH2]]; [simpl; lia | |].
  - split; [| exact IH1].
    change (vc_boundaries (Vowel :: Vowel :: cs))
      with (vc_boundaries (Vowel :: cs)).
    simpl length. lia.
  - change (vc_boundaries (Vowel :: Consonant :: cs))
      with (S (vc_boundaries cs)).
    change (vc_boundaries (Consonant :: cs)) with (vc_boundaries cs).
    simpl length. lia.
Qed.

Lemma vc_boundaries_consonants (c : nat) (cs : list CharacterClass) :
  vc_boundaries (replicate c Consonant ++ cs) = vc_boundaries cs.
Proof. induction c as [| c IH]; [done | exact IH]. Qed.

Lemma vc_boundaries_vowels (a : nat) (cs : list CharacterClass) :
  vc_boundaries (replicate (S a) Vowel ++ cs) = vc_boundaries (Vowel :: cs).
Proof. induction a as [| a IH]; [done | exact IH]. Qed.

Lemma vc_boundaries_blocks (blocks : list (nat * nat)) (v : nat) :
  vc_boundaries ((blocks ≫= block) ++ replicate v Vowel) = length blocks.
Proof.
  induction blocks as [| [a b] blocks IH].
  - simpl. induction v as [| [| v] IHv]; [done | done | exact IHv].
  - rewrite bind_cons. unfold block at 1. cbn [fst snd]. rewrite <- !app_assoc.
    rewrite vc_boundaries_vowels.
    change (vc_boundaries
              (Vowel :: replicate (S b) Consonant
                 ++ (blocks ≫= block) ++ replicate v Vowel))
      with (S (vc_boundaries
                 (replicate (S b) Consonant
                    ++ (blocks ≫= block) ++ replicate v Vowel))).
    by rewrite vc_boundaries_consonants, IH.
Qed.

(** The number of blocks of a form is the number of its VC boundaries:
    every way to write a list of classes as a form has as many blocks. *)
Lemma vc_boundaries_form (c : nat) (blocks : list (nat * nat)) (v : nat) :
  vc_boundaries (form c blocks v) = length blocks.
Proof.
  unfold form. by rewrite vc_boundaries_consonants, vc_boundaries_blocks.
Qed.

(** Every list of classes has the form. *)
Lemma form_exists (cs : list CharacterClass) :
  ∃ c blocks v, cs = form c blocks v.
Proof.
  induction cs as [| x cs (c & blocks & v & ->)].
  - by exists 0%nat, [], 0%nat.
  - destruct x.
    + destruct c as [| c].
      * destruct blocks as [| [a b] blocks].
        -- by exists 0%nat, [], (S v).
        -- by exists 0%nat, ((S a, b) :: blocks), v.
      * exists 0%nat, ((0%nat, c) :: blocks), v.
        unfold form. rewrite bind_cons. unfold block at 2. simpl.
        by rewrite <- !app_assoc.
    + by exists (S c), blocks, v.
Qed.

Lemma classify_is_Some (depth : nat) (word : str) (i : Z) :
  is_Some (classify depth word i) ↔ is_Some (_cons depth word i).
Proof. unfold classify. by rewrite fmap_is_Some. Qed.

Lemma prefix_classes_is_Some (depth : nat) (word : str) (j : Z) :
  is_Some (prefix_classes depth word j)
  ↔ ∀ i, 0 ≤ i ≤ j → is_Some (_cons depth word i).
Proof.
  unfold prefix_classes. rewrite mapM_is_Some, Forall_forall. split.
  - intros H i Hi. apply classify_is_Some, H, elem_of_seqZ. lia.
  - intros H i Hi%elem_of_seqZ. apply classify_is_Some, H. lia.
Qed.

(** The classes [prefix_classes] lists are the classes of the
    characters. *)
Lemma prefix_classes_lookup (depth : nat) (word : str) (j : Z)
  (cs : list CharacterClass) (i : nat) (class : CharacterClass) :
  prefix_classes depth word j = Some cs →
  cs !! i = Some class → classify depth word (Z.of_nat i) = Some class.
Proof.
  intros Hcs Hi. apply mapM_Some_1 in Hcs.
  destruct (Forall2_lookup_r _ _ _ _ _ Hcs Hi) as (z & Hz & Hclass).
  apply lookup_seqZ in Hz as [-> _]. by rewrite Z.add_0_l in Hclass.
Qed.

(** The loop of [_m] from index [i], with [k] characters still ahead up
    to [j]: it classifies each of them, and returns [n] plus the count of
    their classes. *)
Lemma m_loop_count (depth : nat) (word : str) (j : Z) (k : nat) :
  ∀ (fuel : nat) (ph : phase) (i n : Z),
    (k < fuel)%nat →
    i + Z.of_nat k = j + 1 →
    m_loop (S depth) fuel ph word j i n
    = cs ← mapM (classify depth word) (seqZ i (Z.of_nat k));
      Some (n + Z.of_nat (count ph cs)).
Proof.
  induction k as [| k IH]; intros fuel ph i n Hfuel Hi;
    (destruct fuel as [| fuel]; [lia |]); simpl m_loop.
  - destruct (Z.ltb_spec j i); [| lia]. simpl. f_equal. lia.
  - destruct (Z.ltb_spec j i); [lia |].
    rewrite seqZ_cons by lia.
    replace (Z.pred (Z.of_nat (S k))) with (Z.of_nat k) by lia.
    replace (Z.succ i) with (i + 1) by lia.
    assert (∀ ph' n',
               m_loop (S depth) fuel ph' word j (i + 1) n'
               = cs ← mapM (classify depth word) (seqZ (i + 1) (Z.of_nat k));
                 Some (n' + Z.of_nat (count ph' cs))) as Hrec.
    { intros ph' n'. apply IH; lia. }
    cbn [mapM].
    change (classify depth word i)
      with ((λ c : bool, if c then Consonant else Vowel)
              <$> _cons depth word i).
    destruct (_cons depth word i) as [b |]; [| done].
    destruct ph, b; simpl; rewrite Hrec;
      (destruct (mapM _ _) as [cs |]; [| done]); simpl; f_equal; lia.
Qed.

(** [_m] classifies the characters of the prefix, with the frames left
    after its own, and counts the VC boundaries of their classes. *)
Lemma m_vc_boundaries (depth : nat) (word : str) (j : Z) :
  _m (S depth) word j
  = cs ← prefix_classes depth word j; Some (Z.of_nat (vc_boundaries cs)).
Proof.
  unfold _m, prefix_classes.
  destruct (Z.ltb_spec j 0) as [Hj | Hj].
  - rewrite seqZ_nil by lia. simpl.
    destruct (Z.ltb_spec j 0); [done | lia].
  - rewrite (m_loop_count depth word j (Z.to_nat (j + 1))) by lia.
    rewrite Z2Nat.id by lia.
    destruct (mapM _ _) as [cs |]; [| done]. simpl.
    by rewrite (proj1 (count_vc_boundaries cs)).
Qed.

(** With no frame left [_m] returns only when it has no character to
    classify. *)
Lemma m_no_frame (word : str) (j : Z) :
  _m 0 word j = if j <? 0 then Some 0 else None.
Proof. unfold _m. simpl. by destruct (j <? 0). Qed.

(** When [_m] returns, [_cons] has returned on every index up to
    [j]. *)
Lemma m_classifies (depth : nat) (word : str) (j : Z) :
  is_Some (_m (S depth) word j) →
  ∀ i, 0 ≤ i ≤ j → is_Some (_cons depth word i).
Proof.
  rewrite m_vc_boundaries. intros [n Hn].
  apply prefix_classes_is_Some.
  destruct (prefix_classes depth word j); [by eexists | done].
Qed.

(** [_m] returns on every index below the length of the word, the
    negative ones included, when [_cons] has the frames for the word: it
    never indexes outside the word.  A measure above 0 needs a vowel and
    a consonant after it. *)
Lemma m_total (d depth : nat) (word : str) (j : Z) :
  classifies d word → (d < depth)%nat →
  j < len word →
  ∃ n, _m depth word j = Some n ∧ 0 ≤ n ∧ (0 < n → 1 ≤ j).
Proof.
  intros Hw Hd Hj.
  assert (is_Some (prefix_classes d word j)) as [cs Hcs].
  { apply prefix_classes_is_Some. intros i Hi. apply Hw. lia. }
  exists (Z.of_nat (vc_boundaries cs)). split.
  { apply (m_mono word (S d) depth); [lia |].
    by rewrite m_vc_boundaries, Hcs. }
  split; [lia |].
  intros Hn. pose proof (vc_boundaries_length cs) as Hl.
  apply length_mapM in Hcs. rewrite length_seqZ in Hcs. lia.
Qed.

(** Past the end of the word [_m] fails, as [word[i]] raises in
    Python. *)
Lemma m_index_error (depth : nat) (word : str) (j : Z) :
  len word ≤ j → _m depth word j = None.
Proof.
  intros Hj. pose proof (len_nonneg word).
  destruct depth as [| depth].
  { rewrite m_no_frame. destruct (Z.ltb_spec j 0); [lia | done]. }
  destruct (_m (S depth) word j) as [n |] eqn:E; [| done].
  destruct (m_classifies depth word j (mk_is_Some _ _ E) (len word))
    as [b Hb]; [lia |].
  by rewrite cons_index_error in Hb.
Qed.

(** A result of [_m] is its result with any number of frames. *)
Lemma m_only (d d' : nat) (word : str) (j n n' : Z) :
  _m d word j = Some n → _m d' word j = Some n' → n' = n.
Proof.
  intros H H'.
  apply (m_mono word d (d `max` d')) in H; [| lia].
  apply (m_mono word d' (d `max` d')) in H'; [| lia].
  congruence.
Qed.

(** Where [_cons] raises on an index of the prefix, for want of frames,
    so does [_m]. *)
Lemma m_recursion_error (d depth : nat) (word : str) (j i : Z) :
  _cons d word i = None → 0 ≤ i ≤ j → (depth ≤ S d)%nat →
  _m depth word j = None.
Proof.
  intros Hc Hi Hd.
  destruct (_m depth word j) as [n |] eqn:E; [| done].
  apply (m_mono word depth (S d)) in E; [| done].
  destruct (m_classifies d word j (mk_is_Some _ _ E) i Hi) as [b Hb].
  congruence.
Qed.

(** C7, as the spec states it, fails: on a word of 1100 [y] and the
    index of its last character, [_m] raises with the 1000 frames of
    CPython's default limit, and with fewer: [_cons] calls itself once
    per [y] of the run. *)
Lemma C7_measure_recursion_error :
  len (replicate 1100 (chr "y")) = 1100
  ∧ ∀ depth : nat,
      (depth ≤ 1000)%nat → _m depth (replicate 1100 (chr "y")) 1099 = None.
Proof.
  split; [vm_compute; reflexivity |]. intros depth Hd.
  apply (m_recursion_error 1000 depth _ 1099 1099).
  - exact (proj1 cons_recursion_error).
  - split; [intros H; discriminate H | apply Z.le_refl].
  - apply Nat.le_trans with 1000%nat; [exact Hd | apply Nat.le_succ_diag_r].
Qed.

(** C7 (amended): for every word whose runs of [y] are no longer than
    the frames left to [_cons], those left to [_m] less one, and every
    index [j] inside the word (the word is then not empty),
    [_m(word, j)] returns a non-negative integer, the number of VC
    boundaries of the classes of [word[0..j]]; these classes have the
    form [C](VC)^m[V], and the measure is the number of (VC) blocks of
    every such form.  With any number of frames [_m] returns this number
    or raises. *)
Theorem C7_measure (depth : nat) (word : str) (j : Z) :
  0 ≤ j < len word →
  (longest_yrun word ≤ depth)%nat →
  ∃ (n : Z) (cs : list CharacterClass),
    _m (S depth) word j = Some n
    ∧ 0 ≤ n
    ∧ prefix_classes depth word j = Some cs
    ∧ length cs = Z.to_nat (j + 1)
    ∧ (∀ (i : nat) (class : CharacterClass),
         cs !! i = Some class → has_class word (Z.of_nat i) class)
    ∧ n = Z.of_nat (vc_boundaries cs)
    ∧ (∃ c blocks v, cs = form c blocks v)
    ∧ (∀ c blocks v, cs = form c blocks v → n = Z.of_nat (length blocks))
    ∧ (∀ (d : nat) (n' : Z), _m d word j = Some n' → n' = n).
Proof.
  intros Hj Hrun. apply classifies_yrun in Hrun.
  assert (is_Some (prefix_classes depth word j)) as [cs Hcs].
  { apply prefix_classes_is_Some. intros i Hi. apply Hrun. lia. }
  assert (_m (S depth) word j = Some (Z.of_nat (vc_boundaries cs))) as Hm.
  { by rewrite m_vc_boundaries, Hcs. }
  exists (Z.of_nat (vc_boundaries cs)), cs.
  split; [done |]. split; [lia |]. split; [done |]. split.
  { apply length_mapM in Hcs. by rewrite length_seqZ in Hcs. }
  split.
  { intros i class Hi. exists depth.
    by apply (prefix_classes_lookup depth word j cs). }
  split; [done |]. split; [apply form_exists |]. split.
  - intros c blocks v ->. by rewrite vc_boundaries_form.
  - intros d n' Hn'. by apply (m_only _ _ _ _ _ _ Hm Hn').
Qed.

(** C7 at "troubles", whose classes are CCVVCCVC: measure 2. *)
Lemma C7_measure_witness :
  ∃ (n : Z) (cs : list CharacterClass),
    _m 1 "troubles" 7 = Some n
    ∧ 0 ≤ n
    ∧ prefix_classes 0 "troubles" 7 = Some cs
    ∧ length cs = Z.to_nat (7 + 1)
    ∧ (∀ (i : nat) (class : CharacterClass),
         cs !! i = Some class → has_class "troubles" (Z.of_nat i) class)
    ∧ n = Z.of_nat (vc_boundaries cs)
    ∧ (∃ c blocks v, cs = form c blocks v)
    ∧ (∀ c blocks v, cs = form c blocks v → n = Z.of_nat (length blocks))
    ∧ (∀ (d : nat) (n' : Z), _m d "troubles" 7 = Some n' → n' = n).
Proof.
  apply (C7_measure 0 "troubles" 7).
  - split; [lia | vm_compute; reflexivity].
  - vm_compute. lia.
Defined.

(** ** The shape predicates return

    In this section and the next, [d] is a number of frames with which
    [_cons] classifies the word, and [depth] the number a function is
    called with. *)

Lemma cons_call (d depth : nat) (word : str) (i : Z) :
  classifies d word → (d < depth)%nat → 0 ≤ i < len word →
  is_Some (call depth (λ depth, _cons depth word i)).
Proof.
  intros Hw Hd Hi. destruct depth as [| e]; [lia |]. rewrite call_S.
  destruct (Hw i Hi) as [b Hb]. exists b.
  apply (cons_mono word d e); [lia | done].
Qed.

Lemma m_call (d depth : nat) (word : str) (j : Z) :
  classifies d word → (d + 2 ≤ depth)%nat → j < len word →
  ∃ n, call depth (λ depth, _m depth word j) = Some n
       ∧ 0 ≤ n ∧ (0 < n → 1 ≤ j).
Proof.
  intros Hw Hd Hj. destruct depth as [| e]; [lia |]. rewrite call_S.
  apply (m_total d); [done | lia | done].
Qed.

Lemma vowel_scan_total (d depth : nat) (stem : str) (range : list Z) :
  classifies d stem → (d < depth)%nat →
  Forall (λ i, 0 ≤ i < len stem) range →
  ∃ b, vowel_scan depth stem range = Some b ∧ (b = true → range ≠ []).
Proof.
  intros Hw Hd.
  induction 1 as [| i range Hi _ (b & IH & _)]; simpl; [by exists false |].
  destruct (cons_call d depth stem i Hw Hd Hi) as [c ->].
  destruct c; simpl; [| by exists true]. exists b. by rewrite IH.
Qed.

Lemma vowelinstem_total (d depth : nat) (stem : str) :
  classifies d stem → (d < depth)%nat →
  ∃ b, _vowelinstem depth stem = Some b
       ∧ (b = true → (1 ≤ length stem)%nat).
Proof.
  intros Hw Hd.
  destruct (vowel_scan_total d depth stem (seqZ 0 (len stem)) Hw Hd)
    as (b & Hb & Hne).
  { apply Forall_forall. intros i Hi%elem_of_seqZ. lia. }
  exists b. split; [done |]. intros ->.
  destruct stem; [by destruct Hne | simpl; lia].
Qed.

Lemma doublec_total (d depth : nat) (word : str) :
  classifies d word → (d < depth)%nat →
  ∃ b, _doublec depth word = Some b ∧ (b = true → (2 ≤ length word)%nat).
Proof.
  intros Hw Hd. unfold _doublec.
  destruct (Z.ltb_spec (len word) 2) as [H | H]; [by exists false |].
  destruct (index_is_Some word (-1) ltac:(lia)) as [a ->].
  destruct (index_is_Some word (-2) ltac:(lia)) as [b ->]. simpl.
  case_bool_decide; [by exists false |].
  destruct (cons_call d depth word (len word - 1) Hw Hd ltac:(lia))
    as [c ->].
  exists c. split; [done |]. unfold len in H. lia.
Qed.

Lemma cvc_total (d depth : nat) (word : str) (i : Z) :
  classifies d word → (d < depth)%nat →
  0 ≤ i < len word → is_Some (_cvc depth word i).
Proof.
  intros Hw Hd Hi. unfold _cvc.
  destruct (Z.eqb_spec i 0); [by eexists |].
  destruct (Z.eqb_spec i 1) as [-> |].
  - destruct (cons_call d depth word 0 Hw Hd ltac:(lia)) as [c0 ->]. simpl.
    destruct c0; simpl; [by eexists |]. by apply (cons_call d).
  - destruct (cons_call d depth word i Hw Hd ltac:(lia)) as [c ->]. simpl.
    destruct c; simpl; [| by eexists].
    destruct (cons_call d depth word (i - 1) Hw Hd ltac:(lia)) as [c1 ->].
    simpl. destruct c1; simpl; [by eexists |].
    destruct (cons_call d depth word (i - 2) Hw Hd ltac:(lia)) as [c2 ->].
    simpl. destruct c2; simpl; [| by eexists].
    destruct (index_is_Some word i ltac:(lia)) as [ch ->]. simpl.
    case_match; by eexists.
Qed.

(** ** No stage fails, lengthens the word or empties it *)

Lemma shorter_Some (d : nat) (w r : str) :
  (1 ≤ length r ≤ length w)%nat → classifies d r → shorter d w (Some r).
Proof. intros H Hr. by exists r. Qed.

Lemma shorter_if_m_gt (d depth : nat) (t : Z) (w : str) (k : Z)
  (new : str) :
  classifies d w → (d + 2 ≤ depth)%nat →
  0 ≤ t → 0 < k → (1 ≤ length w)%nat →
  (length new ≤ length w)%nat →
  (1 ≤ len w - k → (1 ≤ length new)%nat) →
  classifies d new →
  shorter d w (if_m_gt depth t w k new).
Proof.
  intros Hcw Hd Ht Hk Hw Hnew Hne Hcn. unfold if_m_gt.
  destruct (m_call d depth w (len w - k) Hcw Hd ltac:(lia))
    as (n & -> & Hn0 & Hn).
  simpl. destruct (Z.ltb_spec t n); (apply shorter_Some; [| done]);
    [split; [apply Hne; lia | done] | lia].
Qed.

Lemma shorter_if_m (d depth : nat) (w : str) (k : Z) (new : str) :
  classifies d w → (d + 2 ≤ depth)%nat →
  0 < k → (1 ≤ length w)%nat →
  (length new ≤ length w)%nat →
  (1 ≤ len w - k → (1 ≤ length new)%nat) →
  classifies d new →
  shorter d w (if_m depth w k new).
Proof.
  intros Hcw Hd Hk Hw Hnew Hne Hcn. unfold if_m.
  destruct (m_call d depth w (len w - k) Hcw Hd ltac:(lia))
    as (n & -> & Hn0 & Hn).
  simpl. destruct (Z.eqb_spec n 0); (apply shorter_Some; [| done]);
    [lia | split; [apply Hne; lia | done]].
Qed.

(** The lengths of the literals in the goal and in what is known of the
    word's endings. *)
Ltac lit_lengths :=
  repeat match goal with
    | H : endswith _ (lit _) = true |- _ => apply endswith_length in H
    | H : context [length (lit ?s)] |- _ =>
        let v := eval vm_compute in (length (lit s)) in
        change (length (lit s)) with v in H
    | |- context [length (lit ?s)] =>
        let v := eval vm_compute in (length (lit s)) in
        change (length (lit s)) with v
    end.

Ltac solve_length :=
  lit_lengths; unfold len in *;
  rewrite ?length_app, ?length_chop by lia;
  lit_lengths; lia.

(** The literals the rules append hold no [y]. *)
Ltac y_free := apply (bool_decide_unpack _); vm_compute; exact I.

(** What a rule makes of a word [_cons] classifies, by dropping its end
    and appending a literal, [_cons] classifies too. *)
Ltac solve_classifies :=
  first
    [ assumption
    | apply classifies_chop; [lia | assumption]
    | apply classifies_app;
      [apply classifies_chop; [lia | assumption] | y_free]
    | apply classifies_app; [assumption | y_free] ].

(** One rule of a stage after the other. *)
Ltac rules :=
  repeat first
    [ lazymatch goal with
      | |- shorter _ _ (if is_chr ?c ?a then _ else _) =>
          destruct (is_chr c a)
      | |- shorter _ ?w
             (if endswith ?w ?s || endswith ?w ?s' then _ else _) =>
          destruct (endswith w s) eqn:?; destruct (endswith w s') eqn:?;
          cbv [orb]
      | |- shorter _ ?w (if endswith ?w ?s then _ else _) =>
          destruct (endswith w s) eqn:?
      end
    | apply shorter_if_m_gt;
      [assumption | lia | lia | lia | lia | solve_length | solve_length
      | solve_classifies]
    | apply shorter_if_m;
      [assumption | lia | lia | lia | solve_length | solve_length
      | solve_classifies]
    | apply shorter_Some; [solve_length | solve_classifies] ].

Lemma step3_shorter (d depth : nat) (w : str) :
  classifies d w → (d + 2 ≤ depth)%nat →
  (1 ≤ length w)%nat → shorter d w (_step3 depth w).
Proof.
  intros Hc Hd Hw. unfold _step3.
  destruct (index_is_Some w (-1) ltac:(unfold len; lia)) as [ch ->].
  simpl. rules.
Qed.

Lemma step4_shorter (d depth : nat) (w : str) :
  classifies d w → (d + 2 ≤ depth)%nat →
  (1 ≤ length w)%nat → shorter d w (_step4 depth w).
Proof.
  intros Hc Hd Hw. unfold _step4.
  destruct (Z.leb_spec (len w) 1); [by apply shorter_Some |].
  destruct (index_is_Some w (-2) ltac:(unfold len in *; lia)) as [ch ->].
  simpl. rules.
Qed.

Lemma al_not_alli (x y : str) : x ++ "al" ≠ y ++ "alli".
Proof.
  change (lit "al") with (lit "a" ++ lit "l").
  change (lit "alli") with (lit "all" ++ lit "i").
  rewrite !app_assoc. intros [_ H]%app_inj_2; [| done].
  vm_compute in H. discriminate H.
Qed.

Lemma shorter_le (d : nat) (w w' : str) (o : option str) :
  (length w ≤ length w')%nat → shorter d w o → shorter d w' o.
Proof.
  intros Hl (r & -> & Hr & Hc). exists r. split; [done |]. split; [lia | done].
Qed.

(** The body of [_step2], given that the call of the [alli] rule
    returns. *)
Lemma step2_body_shorter (self_step2 : str → option str) (d depth : nat)
  (w : str) :
  classifies d w → (d + 2 ≤ depth)%nat →
  (1 ≤ length w)%nat →
  (∀ x, w = x ++ "alli" →
        shorter d (x ++ "al") (self_step2 (x ++ "al"))) →
  shorter d w (step2_body self_step2 depth w).
Proof.
  intros Hc Hd Hw Hself. unfold step2_body.
  destruct (Z.leb_spec (len w) 1); [by apply shorter_Some |].
  destruct (index_is_Some w (-2) ltac:(unfold len in *; lia)) as [ch ->].
  simpl. rules.
  match goal with H : endswith w (lit "alli") = true |- _ =>
    apply endswith_suffix in H as [x ->] end.
  rewrite chop_alli.
  destruct (m_call d depth (x ++ "alli") (len (x ++ "alli") - 5) Hc Hd
              ltac:(lia)) as (n & -> & _ & _).
  simpl. destruct (0 <? n); [| by apply shorter_Some].
  apply (shorter_le d (x ++ "al")); [solve_length | by apply Hself].
Qed.

(** On a word in [al], stage 2 does not call itself. *)
Lemma step2_al (d depth : nat) (x : str) :
  classifies d (x ++ "al") → (d + 2 ≤ depth)%nat →
  shorter d (x ++ "al") (_step2 depth (x ++ "al")).
Proof.
  intros Hc Hd. rewrite step2_eq.
  apply step2_body_shorter; [done | done | solve_length |].
  intros y Hy. by destruct (al_not_alli x y).
Qed.

(** [_step2] returns on every word, with the frames for a call of
    itself and for the calls of [_m] and [_cons] from there. *)
Lemma step2_shorter (d depth : nat) (w : str) :
  classifies d w → (d + 3 ≤ depth)%nat →
  (1 ≤ length w)%nat → shorter d w (_step2 depth w).
Proof.
  intros Hc Hd Hw. rewrite step2_eq.
  apply step2_body_shorter; [done | lia | done |].
  intros x ->. destruct depth as [| e]; [lia |]. rewrite call_S.
  apply step2_al; [| lia].
  apply (classifies_app_l d (x ++ "al") "li").
  by rewrite <- app_assoc.
Qed.

Lemma cvc_call (d depth : nat) (word : str) (i : Z) :
  classifies d word → (d + 2 ≤ depth)%nat → 0 ≤ i < len word →
  is_Some (call depth (λ depth, _cvc depth word i)).
Proof.
  intros Hw Hd Hi. destruct depth as [| e]; [lia |]. rewrite call_S.
  apply (cvc_total d); [done | lia | done].
Qed.

Lemma vowelinstem_call (d depth : nat) (stem : str) :
  classifies d stem → (d + 2 ≤ depth)%nat →
  ∃ b, call depth (λ depth, _vowelinstem depth stem) = Some b
       ∧ (b = true → (1 ≤ length stem)%nat).
Proof.
  intros Hw Hd. destruct depth as [| e]; [lia |]. rewrite call_S.
  apply (vowelinstem_total d); [done | lia].
Qed.

Lemma doublec_call (d depth : nat) (word : str) :
  classifies d word → (d + 2 ≤ depth)%nat →
  ∃ b, call depth (λ depth, _doublec depth word) = Some b
       ∧ (b = true → (2 ≤ length word)%nat).
Proof.
  intros Hw Hd. destruct depth as [| e]; [lia |]. rewrite call_S.
  apply (doublec_total d); [done | lia].
Qed.

(** Stage 1c keeps the length. *)
Lemma step1c_length (d depth : nat) (w : str) :
  classifies d w → (d + 1 ≤ depth)%nat → (1 ≤ length w)%nat →
  ∃ r, _step1c depth w = Some r ∧ length r = length w ∧ classifies d r.
Proof.
  intros Hc Hd Hw. unfold _step1c.
  destruct (index_is_Some w (-1) ltac:(unfold len; lia)) as [ch ->].
  simpl. destruct (is_chr ch "y"); simpl; [| by exists w].
  destruct (Z.ltb_spec 2 (len w)); [| by exists w].
  destruct (cons_call d depth w (len w - 2) Hc ltac:(lia) ltac:(lia))
    as [c ->].
  simpl. destruct c; [| by exists w]. eexists. split; [done |].
  split; [solve_length | solve_classifies].
Qed.

Lemma step1c_shorter (d depth : nat) (w : str) :
  classifies d w → (d + 1 ≤ depth)%nat →
  (1 ≤ length w)%nat → shorter d w (_step1c depth w).
Proof.
  intros Hc Hd Hw.
  destruct (step1c_length d depth w Hc Hd Hw) as (r & -> & Hr & Hcr).
  apply shorter_Some; [lia | done].
Qed.

Lemma step5_e_shorter (d depth : nat) (w : str) :
  classifies d w → (d + 2 ≤ depth)%nat →
  (1 ≤ length w)%nat → shorter d w (step5_e depth w).
Proof.
  intros Hc Hd Hw. unfold step5_e.
  destruct (index_is_Some w (-1) ltac:(unfold len; lia)) as [ch ->].
  simpl. destruct (is_chr ch "e"); [| by apply shorter_Some].
  destruct (m_call d depth w (len w - 1) Hc Hd ltac:(lia))
    as (a & -> & Ha0 & Ha).
  simpl. destruct (Z.ltb_spec 1 a).
  { apply shorter_Some; [solve_length | solve_classifies]. }
  destruct (Z.eqb_spec a 1); [| by apply shorter_Some].
  destruct (cvc_call d depth w (len w - 2) Hc Hd ltac:(lia)) as [c ->].
  simpl.
  destruct c; simpl; (apply shorter_Some; [solve_length | solve_classifies]).
Qed.

Lemma step5_ll_shorter (d depth : nat) (w : str) :
  classifies d w → (d + 2 ≤ depth)%nat →
  (1 ≤ length w)%nat → shorter d w (step5_ll depth w).
Proof.
  intros Hc Hd Hw. unfold step5_ll.
  destruct (endswith w "ll") eqn:E; [| by apply shorter_Some].
  destruct (m_call d depth w (len w - 1) Hc Hd ltac:(lia))
    as (n & -> & _ & _).
  simpl.
  destruct (1 <? n); (apply shorter_Some; [solve_length | solve_classifies]).
Qed.

(** Stages in sequence. *)
Lemma shorter_bind (d : nat) (w : str) (o : option str)
  (f : str → option str) :
  shorter d w o →
  (∀ r, (1 ≤ length r)%nat → classifies d r → shorter d r (f r)) →
  shorter d w (o ≫= f).
Proof.
  intros (r & -> & Hr & Hc) Hf. simpl.
  apply (shorter_le d r); [lia | apply Hf; [lia | done]].
Qed.

(** A stage called. *)
Lemma shorter_call (d depth : nat) (w : str) (f : nat → option str) :
  (0 < depth)%nat → shorter d w (f (pred depth)) →
  shorter d w (call depth f).
Proof. intros Hd H. destruct depth; [lia | done]. Qed.

Lemma step5_shorter (d depth : nat) (w : str) :
  classifies d w → (d + 2 ≤ depth)%nat →
  (1 ≤ length w)%nat → shorter d w (_step5 depth w).
Proof.
  intros Hc Hd Hw. unfold _step5.
  apply shorter_bind; [by apply step5_e_shorter |].
  intros r Hr Hcr. by apply step5_ll_shorter.
Qed.

(** Stage 1ab, statement by statement. *)
Lemma step1ab_plural_shorter (d : nat) (w : str) :
  classifies d w →
  (2 ≤ length w)%nat → shorter d w (step1ab_plural w).
Proof.
  intros Hc Hw. unfold step1ab_plural.
  destruct (index_is_Some w (-1) ltac:(unfold len; lia)) as [ch ->].
  simpl. destruct (is_chr ch "s"); [| apply shorter_Some; [lia | done]].
  destruct (endswith w "sses") eqn:?;
    [apply shorter_Some; [solve_length | solve_classifies] |].
  destruct (endswith w "ies") eqn:?.
  { destruct (len w =? 4);
      (apply shorter_Some; [solve_length | solve_classifies]). }
  destruct (index_is_Some w (-2) ltac:(unfold len; lia)) as [prev ->].
  simpl. destruct (negb (is_chr prev "s"));
    (apply shorter_Some; [solve_length | solve_classifies]).
Qed.

(** The [ied]/[eed]/[ed]/[ing] chain: when it sets [ed_or_ing_trimmed]
    it has cut at least two characters. *)
Lemma step1ab_verbal_total (d depth : nat) (w : str) :
  classifies d w → (d + 2 ≤ depth)%nat →
  (1 ≤ length w)%nat →
  ∃ r trimmed,
    step1ab_verbal depth w = Some (r, trimmed)
    ∧ (1 ≤ length r ≤ length w)%nat
    ∧ classifies d r
    ∧ (trimmed = true → (length r + 2 ≤ length w)%nat).
Proof.
  intros Hc Hd Hw. unfold step1ab_verbal.
  assert (classifies d (chop 2 w)) as Hc2 by solve_classifies.
  assert (classifies d (chop 3 w)) as Hc3 by solve_classifies.
  destruct (endswith w "ied") eqn:?.
  { destruct (len w =? 4); do 2 eexists; (split; [done |]);
      (split; [solve_length | split; [solve_classifies | done]]). }
  destruct (endswith w "eed") eqn:?.
  { destruct (m_call d depth w (len w - 4) Hc Hd ltac:(lia))
      as (n & -> & _ & _).
    simpl. destruct (0 <? n); do 2 eexists; (split; [done |]);
      (split; [solve_length | split; [solve_classifies | done]]). }
  destruct (endswith w "ed") eqn:?.
  { destruct (vowelinstem_call d depth (chop 2 w) Hc2 Hd)
      as ([] & -> & Hb); simpl.
    - specialize (Hb eq_refl). do 2 eexists. split; [done |].
      split; [| split; [done |]];
        revert Hb; rewrite !length_chop by lia; lit_lengths; lia.
    - destruct (endswith w "ing") eqn:?; [| by exists w, false].
      destruct (vowelinstem_call d depth (chop 3 w) Hc3 Hd)
        as ([] & -> & Hb'); simpl; [| by exists w, false].
      specialize (Hb' eq_refl). do 2 eexists. split; [done |].
      split; [| split; [done |]];
        revert Hb'; rewrite !length_chop by lia; lit_lengths; lia. }
  simpl. destruct (endswith w "ing") eqn:?; [| by exists w, false].
  destruct (vowelinstem_call d depth (chop 3 w) Hc3 Hd)
    as ([] & -> & Hb); simpl; [| by exists w, false].
  specialize (Hb eq_refl). do 2 eexists. split; [done |].
  split; [| split; [done |]];
    revert Hb; rewrite !length_chop by lia; lit_lengths; lia.
Qed.

(** The block run on a trimmed word: the only result longer than the
    word is the word with an [e] appended. *)
Lemma step1ab_trimmed_total (d depth : nat) (w : str) :
  classifies d w → (d + 2 ≤ depth)%nat →
  (1 ≤ length w)%nat →
  ∃ r, step1ab_trimmed depth w = Some r
       ∧ (1 ≤ length r)%nat
       ∧ classifies d r
       ∧ (r = w ++ "e" ∨ (length r ≤ length w)%nat).
Proof.
  intros Hc Hd Hw. unfold step1ab_trimmed.
  destruct (endswith w "at" || endswith w "bl" || endswith w "iz").
  { eexists. split; [done |].
    split; [solve_length | split; [solve_classifies | by left]]. }
  destruct (doublec_call d depth w Hc Hd) as ([] & -> & Hdc); simpl.
  - specialize (Hdc eq_refl).
    destruct (index_is_Some w (-1) ltac:(unfold len; lia)) as [ch ->].
    simpl. case_match; eexists; (split; [done |]);
      (split; [| split; [solve_classifies | right]]); solve_length.
  - destruct (m_call d depth w (len w - 1) Hc Hd ltac:(lia))
      as (n & -> & _ & _).
    simpl.
    destruct (n =? 1); [| exists w; split; [done |]; split; [lia |];
                          split; [done | right; lia]].
    destruct (cvc_call d depth w (len w - 1) Hc Hd ltac:(unfold len; lia))
      as [c ->].
    simpl. destruct c; eexists; (split; [done |]).
    + split; [solve_length | split; [solve_classifies | by left]].
    + split; [lia | split; [done | right; lia]].
Qed.

Lemma step1ab_shorter (d depth : nat) (w : str) :
  classifies d w → (d + 2 ≤ depth)%nat →
  (2 ≤ length w)%nat → shorter d w (_step1ab depth w).
Proof.
  intros Hc Hd Hw. unfold _step1ab.
  destruct (step1ab_plural_shorter d w Hc Hw) as (w1 & -> & Hw1 & Hc1).
  simpl.
  destruct (step1ab_verbal_total d depth w1 Hc1 Hd ltac:(lia))
    as (w2 & trimmed & -> & Hw2 & Hc2 & Htrimmed).
  simpl. destruct trimmed; [| apply shorter_Some; [lia | done]].
  specialize (Htrimmed eq_refl).
  destruct (step1ab_trimmed_total d depth w2 Hc2 Hd ltac:(lia))
    as (r & -> & Hr1 & Hcr & Hr).
  apply shorter_Some; [| done]. split; [done |].
  destruct Hr as [-> | Hr]; [solve_length | lia].
Qed.

(** The six stages in sequence, each in a frame of its own. *)
Lemma pipeline_shorter (d depth : nat) (w : str) :
  classifies d w → (d + 4 ≤ depth)%nat →
  (2 ≤ length w)%nat → shorter d w (pipeline depth w).
Proof.
  intros Hc Hd Hw. unfold pipeline.
  destruct depth as [| e]; [lia |]. rewrite !call_S.
  apply shorter_bind; [apply step1ab_shorter; [done | lia | done] |].
  intros w1 Hw1 Hc1.
  apply shorter_bind; [apply step1c_shorter; [done | lia | done] |].
  intros w2 Hw2 Hc2.
  apply shorter_bind; [apply step2_shorter; [done | lia | done] |].
  intros w3 Hw3 Hc3.
  apply shorter_bind; [apply step3_shorter; [done | lia | done] |].
  intros w4 Hw4 Hc4.
  apply shorter_bind; [apply step4_shorter; [done | lia | done] |].
  intros w5 Hw5 Hc5.
  apply step5_shorter; [done | lia | done].
Qed.

(** No stem of the table is longer than its surface form. *)
Lemma pool_length (w s : str) :
  pool !! w = Some s → (length s ≤ length w)%nat.
Proof.
  intros E%pool_lookup. unfold irregular_table in E.
  repeat (apply elem_of_cons in E as [E | E];
          [injection E as -> ->; vm_compute; lia |]).
  by apply elem_of_nil in E.
Qed.

(** [stem_word] on a whole word returns when the frames left are four
    more than the longest run of [y] of the word: one for the stage, one
    for the call of stage 2 by itself, one for [_m] and one for the first
    call of [_cons]; its result is no longer than the word. *)
Lemma stem_total (depth : nat) (w : str) :
  (longest_yrun w + 4 ≤ depth)%nat →
  ∃ r, stem depth w = Some r ∧ (length r ≤ length w)%nat.
Proof.
  intros Hd. unfold stem, stem_word. rewrite stem_word_with_whole.
  destruct (pool !! w) as [s |] eqn:E.
  { exists s. split; [done | by eapply pool_length]. }
  destruct (Z.leb_spec (len w) 2); [by exists w |].
  destruct (pipeline_shorter (longest_yrun w) depth w)
    as (r & -> & Hr & _); [by apply classifies_yrun | done | |].
  { unfold len in *. lia. }
  exists r. split; [done | lia].
Qed.

(** Whatever [stem_word] returns on a whole word, with any number of
    frames, is no longer than the word. *)
Lemma stem_length (depth : nat) (w r : str) :
  stem depth w = Some r → (length r ≤ length w)%nat.
Proof.
  intros Hr.
  destruct (stem_total (depth `max` (longest_yrun w + 4)) w)
    as (r' & Hr' & Hl); [lia |].
  by rewrite (stem_only _ _ _ _ _ Hr' Hr).
Qed.

(** ** The length of the stem *)

Create HintDb stages.

#[local] Hint Resolve step1c_shorter step2_shorter step3_shorter
  step4_shorter step5_shorter : stages.








(** ** The wrapper [fart] *)

Lemma slice_whole (p : str) (k : Z) :
  len p ≤ k → slice p (Some 0) (Some k) = p.
Proof.
  intros Hk. pose proof (len_nonneg p). unfold slice, bound. simpl.
  destruct (Z.ltb_spec k 0); [lia |].
  rewrite Z.min_r by lia. rewrite Z.min_l by lia.
  change (Z.to_nat 0) with 0%nat. unfold len.
  rewrite Nat2Z.id, Nat.sub_0_r. apply firstn_all.
Qed.

(** A slice that reaches the end of [p] is [p]. *)
Lemma stem_word_slice (depth : nat) (p : str) (j : Z) :
  len p ≤ j + 1 → stem_word depth p 0 (Some j) = stem depth p.
Proof.
  intros Hj. unfold stem, stem_word, stem_word_with.
  rewrite slice_whole by lia. reflexivity.
Qed.

(** [fart] slices the lowercased token with the length of the token as
    it came.  When lowercasing does not lengthen the token the slice is
    the whole of it, and [fart], called with one frame more than
    [stem_word] needs, is what the spec says: the stem of the lowercased
    token with "fart" appended when the stem differs from the lowercased
    token, and the token as it came otherwise. *)
Theorem fart_length_preserving (lower : str → str) (depth : nat)
  (word : str) :
  len (lower word) ≤ len word →
  (longest_yrun (lower word) + 4 ≤ depth)%nat →
  ∃ stem', stem depth (lower word) = Some stem'
    ∧ (stem' ≠ lower word →
       fart lower (S depth) word = Some (stem' ++ "fart"))
    ∧ (stem' = lower word → fart lower (S depth) word = Some word).
Proof.
  intros Hl Hd.
  destruct (stem_total depth (lower word) Hd) as (stem' & Hs & _).
  exists stem'. split; [done |].
  unfold fart. rewrite call_S, stem_word_slice, Hs by lia.
  cbn [mbind option_bind].
  split; intros H; [by rewrite bool_decide_eq_true_2 |].
  by rewrite bool_decide_eq_false_2 by (by intros ?).
Qed.

(** The wrapper on the token "Running". *)
Lemma fart_length_preserving_witness :
  ∃ stem', stem 4 (ascii_lower "Running") = Some stem'
    ∧ (stem' ≠ ascii_lower "Running" →
       fart ascii_lower 5 "Running" = Some (stem' ++ "fart"))
    ∧ (stem' = ascii_lower "Running" →
       fart ascii_lower 5 "Running" = Some (lit "Running")).
Proof.
  apply (fart_length_preserving ascii_lower 4 "Running").
  - vm_compute. discriminate.
  - vm_compute. lia.
Defined.

(** The spec's two examples of the wrapper. *)
Example fart_running :
  fart ascii_lower 1000 "running" = Some (lit "runfart").
Proof. vm_compute. reflexivity. Qed.

Example fart_the : fart ascii_lower 1000 "The" = Some (lit "The").
Proof. vm_compute. reflexivity. Qed.

(** A result of [fart] is its result with any number of frames. *)
Lemma fart_only (lower : str → str) (d depth : nat) (w r r' : str) :
  fart lower d w = Some r → fart lower depth w = Some r' → r' = r.
Proof.
  intros H H'.
  apply (fart_mono lower w d (d `max` depth)) in H; [| lia].
  apply (fart_mono lower w depth (d `max` depth)) in H'; [| lia].
  congruence.
Qed.

(** C9 fails on the code for a token that lowercasing lengthens.  For
    every [lower] that maps "İstanbul" as Python 3 does, the stem of the
    lowercased token is the lowercased token itself, so the spec's
    [fart] returns the token unchanged; the code stems the lowercased
    token cut to the eight code points of the raw token, finds it
    different from the lowercased token, and returns it with "fart"
    appended, as soon as it has the two frames for [stem_word] and
    stage 1ab.  With no number of frames does it return the token
    unchanged. *)
Theorem C9_fart_cuts_lowered_token (lower : str → str) (depth : nat) :
  lower Istanbul = istanbul →
  (2 ≤ depth)%nat →
  stem depth (lower Istanbul) = Some (lower Istanbul)
  ∧ slice (lower Istanbul) (Some 0) (Some (len Istanbul - 1 + 1))
    = 105%N :: 775%N :: lit "stanbu"
  ∧ fart lower depth Istanbul = Some (105%N :: 775%N :: lit "stanbufart")
  ∧ fart lower depth Istanbul ≠ Some Istanbul
  ∧ ∀ d : nat, fart lower d Istanbul ≠ Some Istanbul.
Proof.
  intros H Hd.
  assert (fart lower 2 Istanbul = Some (105%N :: 775%N :: lit "stanbufart"))
    as Hfart by (unfold fart; rewrite !H; vm_compute; reflexivity).
  assert (∀ d : nat, fart lower d Istanbul ≠ Some Istanbul) as Hno.
  { intros d Hf. by pose proof (fart_only _ _ _ _ _ _ Hfart Hf). }
  split.
  { rewrite H. apply (stem_from 2); [vm_compute; reflexivity | done]. }
  split; [rewrite H; vm_compute; reflexivity |].
  split; [by apply (fart_mono lower Istanbul 2 depth) |].
  split; [apply Hno | exact Hno].
Qed.

(** C9's failing input under a [lower] that agrees with Python 3 on it,
    with the 1000 frames of CPython's default limit. *)
Lemma C9_fart_cuts_lowered_token_witness :
  stem 1000 (lower_Istanbul Istanbul) = Some (lower_Istanbul Istanbul)
  ∧ slice (lower_Istanbul Istanbul) (Some 0) (Some (len Istanbul - 1 + 1))
    = 105%N :: 775%N :: lit "stanbu"
  ∧ fart lower_Istanbul 1000 Istanbul
    = Some (105%N :: 775%N :: lit "stanbufart")
  ∧ fart lower_Istanbul 1000 Istanbul ≠ Some Istanbul
  ∧ ∀ d : nat, fart lower_Istanbul d Istanbul ≠ Some Istanbul.
Proof.
  apply (C9_fart_cuts_lowered_token lower_Istanbul 1000);
    [reflexivity | lia].
Defined.

(** ** The other scenarios of the spec *)

Example stem_caresses : stem 1000 "caresses" = Some (lit "caress").
Proof. vm_compute. reflexivity. Qed.

Example stem_ponies : stem 1000 "ponies" = Some (lit "poni").
Proof. vm_compute. reflexivity. Qed.

Example stem_cats : stem 1000 "cats" = Some (lit "cat").
Proof. vm_compute. reflexivity. Qed.

Example stem_feed : stem 1000 "feed" = Some (lit "feed").
Proof. vm_compute. reflexivity. Qed.

Example stem_skies : stem 1000 "skies" = Some (lit "sky").
Proof. vm_compute. reflexivity. Qed.

Example stem_news : stem 1000 "news" = Some (lit "news").
Proof. vm_compute. reflexivity. Qed.

(** * Further properties of the code *)

(** ** The classifier and the measure look only at the prefix *)

Lemma prefix_classes_app (depth : nat) (word rest : str) (j : Z) :
  j < len word →
  prefix_classes depth (word ++ rest) j = prefix_classes depth word j.
Proof.
  intros Hj. unfold prefix_classes. apply Forall_mapM_ext, Forall_forall.
  intros i Hi%elem_of_seqZ. unfold classify. by rewrite cons_app by lia.
Qed.

Lemma m_app (depth : nat) (word rest : str) (j : Z) :
  j < len word → _m depth (word ++ rest) j = _m depth word j.
Proof.
  intros Hj. destruct depth as [| depth]; [by rewrite !m_no_frame |].
  by rewrite !m_vc_boundaries, prefix_classes_app.
Qed.

(** X2: what follows an index changes neither the class [_cons] gives
    the character there nor the measure [_m] gives the word up to it,
    nor whether they return, with any number of frames.  So the measure
    that gates the rule of a suffix is the measure of the whole of the
    word before the suffix. *)
Theorem measure_of_prefix (depth : nat) (word rest : str) (j : Z) :
  j < len word →
  _m depth (word ++ rest) j = _m depth word j
  ∧ (0 ≤ j → _cons depth (word ++ rest) j = _cons depth word j)
  ∧ _m depth (word ++ rest) (len (word ++ rest) - len rest - 1)
    = _m depth word (len word - 1).
Proof.
  intros Hj. split; [by apply m_app |]. split.
  - intros Hj0. apply cons_app. lia.
  - rewrite len_app.
    replace (len word + len rest - len rest - 1) with (len word - 1) by lia.
    apply m_app. lia.
Qed.

Lemma measure_of_prefix_witness :
  _m 1000 (lit "relat" ++ lit "ional") 4 = _m 1000 "relat" 4
  ∧ (0 ≤ 4 →
     _cons 1000 (lit "relat" ++ lit "ional") 4 = _cons 1000 "relat" 4)
  ∧ _m 1000 (lit "relat" ++ lit "ional")
      (len (lit "relat" ++ lit "ional") - len "ional" - 1)
    = _m 1000 "relat" (len "relat" - 1).
Proof.
  apply (measure_of_prefix 1000 "relat" "ional" 4). vm_compute. reflexivity.
Defined.

(** ** Bounds of the measure *)

Lemma vc_boundaries_app_le (cs rest : list CharacterClass) :
  (vc_boundaries cs ≤ vc_boundaries (cs ++ rest))%nat.
Proof.
  induction cs as [| x cs IH]; [simpl; lia |].
  destruct x; [| exact IH].
  destruct cs as [| [] cs].
  - simpl. lia.
  - exact IH.
  - change (S (vc_boundaries (Consonant :: cs))
            ≤ S (vc_boundaries ((Consonant :: cs) ++ rest)))%nat.
    lia.
Qed.

Lemma prefix_classes_le (depth : nat) (word : str) (j j' : Z)
  (cs' : list CharacterClass) :
  j ≤ j' → prefix_classes depth word j' = Some cs' →
  ∃ cs rest, prefix_classes depth word j = Some cs ∧ cs' = cs ++ rest.
Proof.
  intros Hj Hcs'. unfold prefix_classes in *.
  destruct (Z.ltb_spec j 0) as [H0 | H0].
  { exists [], cs'. by rewrite seqZ_nil by lia. }
  replace (j' + 1) with ((j + 1) + (j' - j)) in Hcs' by lia.
  rewrite seqZ_app in Hcs' by lia.
  apply mapM_Some_1, Forall2_app_inv_l in Hcs'
    as (cs & rest & Hcs & _ & ->).
  exists cs, rest. split; [by apply mapM_Some_2 | done].
Qed.

(** Where [_m] returns it returns for every smaller index, with the same
    frames, and no more. *)
Lemma m_le (depth : nat) (word : str) (j j' n' : Z) :
  j ≤ j' → _m depth word j' = Some n' →
  ∃ n, _m depth word j = Some n
       ∧ 0 ≤ n ≤ n' ∧ 2 * n' ≤ Z.max 0 (j' + 1) ∧ (j < 0 → n = 0).
Proof.
  intros Hj Hn'. destruct depth as [| depth].
  { rewrite m_no_frame in *.
    destruct (Z.ltb_spec j' 0); [| done]. injection Hn' as <-.
    exists 0. destruct (Z.ltb_spec j 0); [| lia]. split; [done | lia]. }
  rewrite m_vc_boundaries in *.
  destruct (prefix_classes depth word j') as [cs' |] eqn:Hcs'; [| done].
  injection Hn' as <-.
  destruct (prefix_classes_le depth word j j' cs' Hj Hcs')
    as (cs & rest & Hcs & ->).
  rewrite Hcs. exists (Z.of_nat (vc_boundaries cs)). split; [done |].
  pose proof (vc_boundaries_app_le cs rest).
  pose proof (vc_boundaries_length (cs ++ rest)) as Hl.
  apply length_mapM in Hcs'. rewrite length_seqZ in Hcs'.
  split; [lia |]. split; [lia |].
  intros Hneg. unfold prefix_classes in Hcs.
  rewrite seqZ_nil in Hcs by lia. by injection Hcs as <-.
Qed.

(** X3: on every index below the length of the word, negative ones
    included, [_m] returns when the longest run of [y] of the word is
    less than the frames left.  Whenever it returns, with any number of
    frames, it returns for every smaller index too; the measure is 0
    below index 0, it never decreases when the index grows, and twice
    the measure is at most the number of characters scanned.  On an
    index at or past the length of the word [_m] raises, with any number
    of frames. *)
Theorem measure_bounds :
  (∀ (depth : nat) (word : str) (j : Z),
     j < len word → (longest_yrun word < depth)%nat →
     is_Some (_m depth word j))
  ∧ (∀ (depth : nat) (word : str) (j j' n' : Z),
       j ≤ j' → _m depth word j' = Some n' →
       ∃ n, _m depth word j = Some n
            ∧ 0 ≤ n ≤ n' ∧ 2 * n' ≤ Z.max 0 (j' + 1)
            ∧ (j < 0 → n = 0))
  ∧ (∀ (depth : nat) (word : str) (j : Z),
       len word ≤ j → _m depth word j = None).
Proof.
  split; [| split; [apply m_le | apply m_index_error]].
  intros depth word j Hj Hd.
  destruct (m_total (longest_yrun word) depth word j) as (n & Hn & _);
    [by apply classifies_yrun | done | done |].
  by exists n.
Qed.

(** ** What the shape predicates answer *)

(** What [_cons] returns, with any number of frames, is the class of the
    character. *)
Lemma has_class_cons (depth : nat) (word : str) (i : Z) (c : bool) :
  _cons depth word i = Some c →
  (has_class word i Consonant ↔ c = true)
  ∧ (has_class word i Vowel ↔ c = false).
Proof.
  intros Hc.
  assert (has_class word i (if c then Consonant else Vowel)) as H.
  { exists depth. unfold classify. by rewrite Hc. }
  split; (split; [intros H' | intros ->; exact H]);
    pose proof (has_class_unique _ _ _ _ H H'); by destruct c.
Qed.

(** After consonants only, [_cons] needs no frame to see a consonant and
    one frame for any character. *)
Lemma cons_consonant_run (word : str) (i : Z) :
  (∀ j, 0 ≤ j ≤ i → has_class word j Consonant) →
  0 ≤ i → _cons 0 word i = Some true.
Proof.
  intros Hrun Hi. destruct (Hrun i ltac:(lia)) as [d Hd].
  apply classify_Consonant in Hd. rewrite cons_eq in Hd |- *.
  destruct (index word i) as [c |] eqn:Hc; [simpl in * | done].
  destruct (bool_decide (c ∈ vowels)); [done |].
  unfold is_chr in *. case_bool_decide as Hy; [| done]. subst c.
  destruct (Z.eqb_spec i 0) as [| Hi0]; [done |].
  assert (has_class word i Consonant) as H by (apply Hrun; lia).
  apply has_class_y_later in H; [| done | done].
  pose proof (has_class_unique _ _ _ _ H (Hrun (i - 1) ltac:(lia))).
  done.
Qed.

Lemma cons_after_consonants (word : str) (k : Z) :
  (∀ j, 0 ≤ j < k → has_class word j Consonant) →
  0 ≤ k < len word → is_Some (_cons 1 word k).
Proof.
  intros Hrun Hk. rewrite cons_eq.
  destruct (index_is_Some word k ltac:(lia)) as [c ->].
  cbn [mbind option_bind].
  destruct (bool_decide (c ∈ vowels)); [by eexists |].
  destruct (is_chr c "y"); [| by eexists].
  destruct (Z.eqb_spec k 0); [by eexists |].
  rewrite call_S, cons_consonant_run; [by eexists | | lia].
  intros j Hj. apply Hrun. lia.
Qed.

(** The scan of [_vowelinstem] from index [k] on, the characters before
    it being consonants. *)
Lemma vowel_scan_spec (depth : nat) (stem : str) (n : nat) :
  (2 ≤ depth)%nat →
  ∀ k : Z,
    0 ≤ k → k + Z.of_nat n = len stem →
    (∀ j, 0 ≤ j < k → has_class stem j Consonant) →
    ∃ b, vowel_scan depth stem (seqZ k (Z.of_nat n)) = Some b
         ∧ (b = true ↔ ∃ i, 0 ≤ i < len stem ∧ has_class stem i Vowel).
Proof.
  intros Hd. induction n as [| n IH]; intros k Hk Hn Hrun.
  { exists false. split; [done |]. split; [done |].
    intros (i & Hi & Hv).
    pose proof (has_class_unique _ _ _ _ Hv (Hrun i ltac:(lia))). done. }
  rewrite seqZ_cons by lia.
  replace (Z.pred (Z.of_nat (S n))) with (Z.of_nat n) by lia.
  cbn [vowel_scan]. destruct depth as [| e]; [lia |]. rewrite call_S.
  destruct (cons_after_consonants stem k Hrun ltac:(lia)) as [c Hc].
  apply (cons_mono stem 1 e) in Hc; [| lia]. rewrite Hc. simpl.
  destruct (has_class_cons _ _ _ _ Hc) as [Hcc Hcv].
  destruct c; simpl.
  - apply IH; [lia | lia |]. intros j Hj.
    destruct (decide (j = k)) as [-> | Hjk]; [by apply Hcc |].
    apply Hrun. lia.
  - exists true. split; [done |]. split; [| done].
    intros _. exists k. split; [lia | by apply Hcv].
Qed.

(** X4: [_vowelinstem] returns on every string, the empty one included,
    as soon as two frames are left: it stops at the first vowel, and
    after consonants only [_cons] calls itself at most once.  It answers
    [True] exactly when some position of the string classifies as Vowel;
    on the empty string the answer is [False]. *)
Theorem vowelinstem_spec (depth : nat) (stem : str) :
  (2 ≤ depth)%nat →
  ∃ b, _vowelinstem depth stem = Some b
       ∧ (b = true
          ↔ ∃ i, 0 ≤ i < len stem ∧ has_class stem i Vowel)
       ∧ (stem = [] → b = false).
Proof.
  intros Hd. unfold _vowelinstem.
  destruct (vowel_scan_spec depth stem (length stem) Hd 0)
    as (b & Hb & Hiff); [done | done | intros j Hj; lia |].
  exists b. split; [done |]. split; [done |].
  intros ->. by injection Hb as <-.
Qed.

Lemma vowelinstem_spec_witness :
  ∃ b, _vowelinstem 2 "syzygy" = Some b
       ∧ (b = true
          ↔ ∃ i, 0 ≤ i < len "syzygy" ∧ has_class "syzygy" i Vowel)
       ∧ (lit "syzygy" = [] → b = false).
Proof. apply (vowelinstem_spec 2 "syzygy"). lia. Defined.

(** [_cons] returns on every index of a word whose runs of [y] are no
    longer than the frames left. *)
Lemma cons_yrun (depth : nat) (word : str) (i : Z) :
  (longest_yrun word ≤ depth)%nat → 0 ≤ i < len word →
  is_Some (_cons depth word i).
Proof. intros Hd. by apply classifies_yrun. Qed.

(** X5: [_doublec] returns on every word whose longest run of [y] is
    less than the frames left, and answers [True] exactly when the word
    has two characters or more, its last two characters are the same,
    and the last one classifies as Consonant. *)
Theorem doublec_spec (depth : nat) (word : str) :
  (longest_yrun word < depth)%nat →
  ∃ b, _doublec depth word = Some b
       ∧ (b = true
          ↔ 2 ≤ len word
            ∧ index word (-1) = index word (-2)
            ∧ has_class word (len word - 1) Consonant).
Proof.
  intros Hd. destruct depth as [| e]; [lia |].
  unfold _doublec. destruct (Z.ltb_spec (len word) 2) as [H | H].
  { exists false. split; [done |]. split; [done | intros [? _]; lia]. }
  destruct (index_is_Some word (-1) ltac:(lia)) as [a Ha].
  destruct (index_is_Some word (-2) ltac:(lia)) as [b Hb].
  rewrite Ha, Hb. simpl. case_bool_decide as Hab.
  { exists false. split; [done |]. split; [done |].
    intros (_ & [= ?] & _). done. }
  subst b.
  destruct (cons_yrun e word (len word - 1) ltac:(lia) ltac:(lia))
    as [c Hc].
  rewrite Hc. exists c. split; [done |].
  rewrite (proj1 (has_class_cons _ _ _ _ Hc)). split.
  - by intros ->.
  - by intros (_ & _ & ->).
Qed.

Lemma doublec_spec_witness :
  ∃ b, _doublec 1 "hopp" = Some b
       ∧ (b = true
          ↔ 2 ≤ len "hopp"
            ∧ index "hopp" (-1) = index "hopp" (-2)
            ∧ has_class "hopp" (len "hopp" - 1) Consonant).
Proof. apply (doublec_spec 1 "hopp"). vm_compute. lia. Defined.

(** X6: on an index inside a word whose longest run of [y] is less than
    the frames left, [_cvc] returns, and answers [True] exactly when
    either the index is 1 and the word begins Vowel, Consonant, or the
    index is 2 or more, the three characters ending at the index
    classify as Consonant, Vowel, Consonant and the last of them is none
    of [w], [x], [y].  At index 0 the answer is [False]. *)
Theorem cvc_spec (depth : nat) (word : str) (i : Z) :
  0 ≤ i < len word →
  (longest_yrun word < depth)%nat →
  ∃ b, _cvc depth word i = Some b
       ∧ (b = true
          ↔ (i = 1
             ∧ has_class word 0 Vowel
             ∧ has_class word 1 Consonant)
            ∨ (2 ≤ i
               ∧ has_class word (i - 2) Consonant
               ∧ has_class word (i - 1) Vowel
               ∧ has_class word i Consonant
               ∧ ∃ ch, index word i = Some ch
                       ∧ ch ∉ [chr "w"; chr "x"; chr "y"])).
Proof.
  intros Hi Hd. destruct depth as [| e]; [lia |]. unfold _cvc.
  rewrite !call_S.
  destruct (Z.eqb_spec i 0) as [-> | Hi0].
  { exists false. split; [done |]. split; [done |].
    intros [[? _] | [? _]]; lia. }
  destruct (Z.eqb_spec i 1) as [-> | Hi1].
  { destruct (cons_yrun e word 0 ltac:(lia) ltac:(lia)) as [c0 Hc0].
    destruct (cons_yrun e word 1 ltac:(lia) ltac:(lia)) as [c1 Hc1].
    rewrite Hc0, Hc1.
    setoid_rewrite (proj2 (has_class_cons _ _ _ _ Hc0)).
    setoid_rewrite (proj1 (has_class_cons _ _ _ _ Hc1)).
    simpl. destruct c0; simpl.
    - exists false. split; [done |]. split; [done |].
      intros [(_ & ? & _) | [? _]]; [done | lia].
    - exists c1. split; [done |]. split.
      + intros ->. by left.
      + intros [(_ & _ & ?) | [? _]]; [done | lia]. }
  destruct (cons_yrun e word i ltac:(lia) ltac:(lia)) as [c Hc].
  destruct (cons_yrun e word (i - 1) ltac:(lia) ltac:(lia)) as [c1 Hc1].
  destruct (cons_yrun e word (i - 2) ltac:(lia) ltac:(lia)) as [c2 Hc2].
  destruct (index_is_Some word i ltac:(lia)) as [ch Hch].
  rewrite Hc, Hc1, Hc2, Hch.
  setoid_rewrite (proj1 (has_class_cons _ _ _ _ Hc)).
  setoid_rewrite (proj2 (has_class_cons _ _ _ _ Hc1)).
  setoid_rewrite (proj1 (has_class_cons _ _ _ _ Hc2)).
  simpl. destruct c; simpl.
  2: { exists false. split; [done |]. split; [done |].
       intros [[? _] | (_ & _ & _ & ? & _)]; [lia | done]. }
  destruct c1; simpl.
  { exists false. split; [done |]. split; [done |].
    intros [[? _] | (_ & _ & ? & _)]; [lia | done]. }
  destruct c2; simpl.
  2: { exists false. split; [done |]. split; [done |].
       intros [[? _] | (_ & ? & _)]; [lia | done]. }
  unfold is_chr.
  destruct (decide (ch ∈ [chr "w"; chr "x"; chr "y"])) as [Hin | Hnot].
  - exists false. split.
    + apply elem_of_cons in Hin as [E | Hin]; [by rewrite E |].
      apply elem_of_cons in Hin as [E | Hin]; [by rewrite E |].
      apply elem_of_cons in Hin as [E | Hin]; [by rewrite E |].
      by apply elem_of_nil in Hin.
    + split; [done |].
      intros [[? _] | (_ & _ & _ & _ & ch' & [= <-] & Hnot)]; [lia | done].
  - exists true. split.
    + rewrite !bool_decide_eq_false_2; [done | | |];
        intros ->; apply Hnot; repeat constructor.
    + split; [| done]. intros _. right. split; [lia |].
      repeat (split; [done |]). by exists ch.
Qed.

Lemma cvc_spec_witness :
  ∃ b, _cvc 1 "hop" 2 = Some b
       ∧ (b = true
          ↔ (2 = 1
             ∧ has_class "hop" 0 Vowel
             ∧ has_class "hop" 1 Consonant)
            ∨ (2 ≤ 2
               ∧ has_class "hop" (2 - 2) Consonant
               ∧ has_class "hop" (2 - 1) Vowel
               ∧ has_class "hop" 2 Consonant
               ∧ ∃ ch, index "hop" 2 = Some ch
                       ∧ ch ∉ [chr "w"; chr "x"; chr "y"])).
Proof.
  apply (cvc_spec 1 "hop" 2).
  - split; [lia | vm_compute; reflexivity].
  - vm_compute. lia.
Defined.

(** ** Stage 1c *)

Lemma index_last_app (x : str) (c : char) : index (x ++ [c]) (-1) = Some c.
Proof.
  rewrite (index_neg _ 1) by (rewrite len_app; pose proof (len_nonneg x);
                              change (len [c]) with 1; lia).
  rewrite length_app. simpl.
  replace (length x + 1 - Z.to_nat 1)%nat with (length x + 0)%nat by lia.
  by rewrite lookup_app_r, Nat.add_comm, Nat.add_sub by lia.
Qed.

Lemma step1c_cases (depth : nat) (word : str) :
  (1 ≤ length word)%nat → (longest_yrun word < depth)%nat →
  (index word (-1) = Some (chr "y") ∧ 2 < len word
   ∧ has_class word (len word - 2) Consonant
   ∧ _step1c depth word = Some (chop 1 word ++ "i"))
  ∨ (¬ (index word (-1) = Some (chr "y") ∧ 2 < len word
        ∧ has_class word (len word - 2) Consonant)
     ∧ _step1c depth word = Some word).
Proof.
  intros Hw Hd. destruct depth as [| e]; [lia |]. unfold _step1c.
  destruct (index_is_Some word (-1) ltac:(unfold len; lia)) as [ch ->].
  simpl. unfold is_chr. case_bool_decide as Hy; simpl.
  2: { right. split; [| done]. intros ([= ?] & _). done. }
  subst ch. destruct (Z.ltb_spec 2 (len word)) as [Hl | Hl].
  2: { right. split; [| done]. intros (_ & ? & _). lia. }
  destruct (cons_yrun e word (len word - 2) ltac:(lia) ltac:(lia))
    as [c Hc].
  rewrite Hc. simpl.
  destruct (has_class_cons _ _ _ _ Hc) as [Hcc _].
  destruct c; [left; by rewrite Hcc |].
  right. split; [| done]. intros (_ & _ & ?%Hcc). done.
Qed.

(** X7: on a word that is not empty and whose longest run of [y] is
    less than the frames left, [_step1c] returns a word of the same
    length.  It replaces a final [y] by [i] exactly when the word has
    more than two characters and the character before the [y]
    classifies as Consonant, and returns the word as it is otherwise.
    Applied to its own result it changes nothing. *)
Theorem step1c_spec (depth : nat) (word : str) :
  (1 ≤ length word)%nat →
  (longest_yrun word < depth)%nat →
  ∃ r, _step1c depth word = Some r
       ∧ length r = length word
       ∧ (index word (-1) = Some (chr "y")
          ∧ 2 < len word
          ∧ has_class word (len word - 2) Consonant
          → r = chop 1 word ++ "i")
       ∧ (¬ (index word (-1) = Some (chr "y")
             ∧ 2 < len word
             ∧ has_class word (len word - 2) Consonant)
          → r = word)
       ∧ _step1c depth r = Some r.
Proof.
  intros Hw Hd.
  destruct (step1c_cases depth word Hw Hd)
    as [(Hy & Hl & Hc & Hr) | [Hnot Hr]].
  - exists (chop 1 word ++ "i"). split; [done |].
    split; [solve_length |]. split; [done |]. split.
    { intros Hnot. by destruct Hnot. }
    unfold _step1c. change (lit "i") with [chr "i"].
    rewrite index_last_app. reflexivity.
  - exists word. split; [done |]. split; [done |].
    split; [by intros H; destruct Hnot |]. done.
Qed.

Lemma step1c_spec_witness :
  ∃ r, _step1c 2 "happy" = Some r
       ∧ length r = length (lit "happy")
       ∧ (index "happy" (-1) = Some (chr "y")
          ∧ 2 < len "happy"
          ∧ has_class "happy" (len "happy" - 2) Consonant
          → r = chop 1 "happy" ++ "i")
       ∧ (¬ (index "happy" (-1) = Some (chr "y")
             ∧ 2 < len "happy"
             ∧ has_class "happy" (len "happy" - 2) Consonant)
          → r = lit "happy")
       ∧ _step1c 2 r = Some r.
Proof. apply (step1c_spec 2 "happy"); vm_compute; lia. Defined.

(** ** Stage 1ab on words in [ss] *)

Lemma endswith_differs (x t suf : str) :
  (length t ≤ length suf)%nat →
  drop (length suf - length t) suf ≠ t →
  endswith (x ++ t) suf = false.
Proof.
  intros Hl Hne. destruct (endswith (x ++ t) suf) eqn:E; [| done].
  apply endswith_suffix in E as [k E]. destruct Hne.
  rewrite <- (take_drop (length suf - length t) suf) in E.
  rewrite app_assoc in E. apply app_inj_2 in E as [_ E]; [done |].
  rewrite length_drop. lia.
Qed.

(** Decide [endswith] of a word with a known ending. *)
Ltac eval_endswith :=
  repeat first
    [ rewrite endswith_app
    | rewrite endswith_tail by (vm_compute; lia)
    | rewrite endswith_differs by (vm_compute; (lia || discriminate)) ];
  eval_lits.

Lemma step1ab_verbal_ss (depth : nat) (x : str) :
  step1ab_verbal depth (x ++ "ss") = Some (x ++ "ss", false).
Proof. unfold step1ab_verbal. by eval_endswith. Qed.

Lemma chop_sses (x : str) : chop 2 (x ++ "sses") = x ++ "ss".
Proof.
  change (lit "sses") with (lit "ss" ++ lit "es").
  rewrite app_assoc. by apply chop_app.
Qed.

(** X8: stage 1ab returns every word in [ss] as it is, the word "ss"
    itself included, and cuts a word in [sses] to the same word in
    [ss]; it makes no call for it, and so does it with any number of
    frames. *)
Theorem step1ab_ss (depth : nat) (x : str) :
  _step1ab depth (x ++ "ss") = Some (x ++ "ss")
  ∧ _step1ab depth (x ++ "sses") = Some (x ++ "ss").
Proof.
  unfold _step1ab, step1ab_plural. split.
  - rewrite (index_app_lit x (-1) "ss" (chr "s")) by done.
    rewrite (index_app_lit x (-2) "ss" (chr "s")) by done.
    simpl. eval_endswith. simpl. by rewrite step1ab_verbal_ss.
  - rewrite (index_app_lit x (-1) "sses" (chr "s")) by done.
    simpl. eval_endswith. simpl. rewrite chop_sses.
    by rewrite step1ab_verbal_ss.
Qed.

(** ** Stages 3, 4 and 5 only strip *)

Lemma stripped_Some (w : str) : (1 ≤ length w)%nat → stripped w (Some w).
Proof.
  intros Hw. exists w. split; [done |]. split; [done |].
  destruct w; [simpl in Hw; lia | done].
Qed.

Lemma stripped_chop (w : str) (k : Z) :
  0 < k → (Z.to_nat k < length w)%nat → stripped w (Some (chop k w)).
Proof.
  intros Hk Hl. exists (chop k w). split; [done |]. split.
  - rewrite chop_take by done. apply prefix_take.
  - intros H%(f_equal length). rewrite length_chop in H by done.
    simpl in H. lia.
Qed.

Lemma stripped_if_m_gt (d depth : nat) (t : Z) (w : str) (k k' : Z) :
  classifies d w → (d + 2 ≤ depth)%nat →
  0 ≤ t → 0 < k' ≤ k → (1 ≤ length w)%nat →
  stripped w (if_m_gt depth t w k (chop k' w)).
Proof.
  intros Hc Hd Ht Hk Hw. unfold if_m_gt.
  destruct (m_call d depth w (len w - k) Hc Hd ltac:(lia))
    as (n & -> & Hn0 & Hn).
  simpl. destruct (Z.ltb_spec t n); [| by apply stripped_Some].
  apply stripped_chop; [lia |]. unfold len in Hn. lia.
Qed.

Lemma stripped_if_m (d depth : nat) (w : str) (k k' : Z) :
  classifies d w → (d + 2 ≤ depth)%nat →
  0 < k' ≤ k → (1 ≤ length w)%nat →
  stripped w (if_m depth w k (chop k' w)).
Proof.
  intros Hc Hd Hk Hw. unfold if_m.
  destruct (m_call d depth w (len w - k) Hc Hd ltac:(lia))
    as (n & -> & Hn0 & Hn).
  simpl. destruct (Z.eqb_spec n 0); [by apply stripped_Some |].
  apply stripped_chop; [lia |]. unfold len in Hn. lia.
Qed.

Ltac strip_rules :=
  repeat first
    [ lazymatch goal with
      | |- stripped _ (if is_chr ?c ?a then _ else _) => destruct (is_chr c a)
      | |- stripped ?w (if endswith ?w ?s || endswith ?w ?s' then _ else _) =>
          destruct (endswith w s || endswith w s')
      | |- stripped ?w (if endswith ?w ?s then _ else _) =>
          destruct (endswith w s)
      end
    | eapply stripped_if_m_gt; [eassumption | lia | lia | lia | lia]
    | eapply stripped_if_m; [eassumption | lia | lia | lia]
    | apply stripped_Some; lia ].

Lemma step3_stripped (d depth : nat) (w : str) :
  classifies d w → (d + 2 ≤ depth)%nat →
  (1 ≤ length w)%nat → stripped w (_step3 depth w).
Proof.
  intros Hc Hd Hw. unfold _step3.
  destruct (index_is_Some w (-1) ltac:(unfold len; lia)) as [ch ->].
  simpl. strip_rules.
Qed.

Lemma step4_stripped (d depth : nat) (w : str) :
  classifies d w → (d + 2 ≤ depth)%nat →
  (1 ≤ length w)%nat → stripped w (_step4 depth w).
Proof.
  intros Hc Hd Hw. unfold _step4.
  destruct (Z.leb_spec (len w) 1); [by apply stripped_Some |].
  destruct (index_is_Some w (-2) ltac:(unfold len in *; lia)) as [ch ->].
  simpl. strip_rules.
Qed.

Lemma step5_stripped (d depth : nat) (w : str) :
  classifies d w → (d + 2 ≤ depth)%nat →
  (1 ≤ length w)%nat → stripped w (_step5 depth w).
Proof.
  intros Hc Hd Hw. unfold _step5.
  assert (stripped w (step5_e depth w) ∧ shorter d w (step5_e depth w))
    as [(w1 & -> & Hpre & Hne) (? & [= <-] & _ & Hc1)].
  { split; [| by apply step5_e_shorter]. unfold step5_e.
    destruct (index_is_Some w (-1) ltac:(unfold len; lia)) as [ch ->].
    simpl. destruct (is_chr ch "e"); [| by apply stripped_Some].
    destruct (m_call d depth w (len w - 1) Hc Hd ltac:(lia))
      as (a & -> & Ha0 & Ha).
    simpl. destruct (Z.ltb_spec 1 a).
    { apply stripped_chop; [lia |]. unfold len in Ha. lia. }
    destruct (Z.eqb_spec a 1); [| by apply stripped_Some].
    destruct (cvc_call d depth w (len w - 2) Hc Hd ltac:(lia)) as [c ->].
    simpl. destruct c; simpl; [by apply stripped_Some |].
    apply stripped_chop; [lia |]. unfold len in Ha. lia. }
  simpl. unfold step5_ll.
  assert (1 ≤ length w1)%nat by (destruct w1; [done | simpl; lia]).
  destruct (endswith w1 "ll") eqn:E.
  2: { exists w1. by repeat split. }
  destruct (m_call d depth w1 (len w1 - 1) Hc1 Hd ltac:(lia))
    as (n & -> & _ & _).
  simpl. destruct (1 <? n); [| exists w1; by repeat split].
  destruct (stripped_chop w1 1) as (r & [= <-] & Hpre1 & Hne1);
    [lia | apply endswith_length in E; lit_lengths; lia |].
  exists (chop 1 w1). split; [done |]. split; [by etrans | done].
Qed.

(** What a function returns with enough frames is what it returns with
    any number of them. *)
Lemma returned {A : Type} (f : nat → option A) (P : A → Prop) (D : nat) :
  (∀ d d', (d ≤ d')%nat → below (f d) (f d')) →
  (∀ depth, (D ≤ depth)%nat → ∃ r, f depth = Some r ∧ P r) →
  ∀ depth r, f depth = Some r → P r.
Proof.
  intros Hmono Htotal depth r Hr.
  destruct (Htotal (Nat.max depth D)) as (r' & Hr' & HP); [lia |].
  apply (Hmono depth (Nat.max depth D)) in Hr; [| lia]. congruence.
Qed.

(** X9: on a word that is not empty each of the stages 3, 4 and 5
    returns, when the longest run of [y] of the word is at least two
    less than the frames left; and what it returns, with any number of
    frames, is a beginning of the word it is given, and never the empty
    word: these stages strip characters from the end and rewrite
    nothing. *)
Theorem stages_3_4_5_strip :
  (∀ f : nat → str → option str,
     f ∈ [_step3; _step4; _step5] →
     ∀ (depth : nat) (w : str),
       (1 ≤ length w)%nat → (longest_yrun w + 2 ≤ depth)%nat →
       is_Some (f depth w))
  ∧ (∀ f : nat → str → option str,
       f ∈ [_step3; _step4; _step5] →
       ∀ (depth : nat) (w r : str),
         (1 ≤ length w)%nat → f depth w = Some r →
         r `prefix_of` w ∧ r ≠ []).
Proof.
  assert (∀ f : nat → str → option str,
             f ∈ [_step3; _step4; _step5] →
             ∀ (w : str), (1 ≤ length w)%nat →
               (∀ d d', (d ≤ d')%nat → below (f d w) (f d' w))
               ∧ ∀ depth : nat, (longest_yrun w + 2 ≤ depth)%nat →
                   stripped w (f depth w)) as H.
  { intros f Hf w Hw.
    assert (classifies (longest_yrun w) w) as Hc
      by by apply classifies_yrun.
    repeat (apply elem_of_cons in Hf as [-> | Hf];
            [split; [intros d d' Hd; auto with mono |];
             intros depth Hd;
             eauto using step3_stripped, step4_stripped, step5_stripped |]).
    by apply elem_of_nil in Hf. }
  split.
  - intros f Hf depth w Hw Hd.
    destruct (H f Hf w Hw) as [_ Ht].
    destruct (Ht depth Hd) as (r & -> & _). by eexists.
  - intros f Hf depth w r Hw Hr.
    destruct (H f Hf w Hw) as [Hmono Ht].
    by apply (returned (λ depth, f depth w) _ _ Hmono Ht depth r).
Qed.

(** ** Words of low measure pass the late stages as they are *)

(** The measure a rule asks for, given the measure of the word. *)
Lemma m_call_le (d depth : nat) (w : str) (k n : Z) :
  _m d w (len w - 1) = Some n → (d < depth)%nat → 0 < k →
  ∃ n', call depth (λ depth, _m depth w (len w - k)) = Some n'
        ∧ 0 ≤ n' ≤ n.
Proof.
  intros Hn Hd Hk. destruct depth as [| e]; [lia |]. rewrite call_S.
  destruct (m_le d w (len w - k) (len w - 1) n) as (n' & Hn' & Hle & _);
    [lia | done |].
  exists n'. split; [| done]. apply (m_mono w d e); [lia | done].
Qed.

Lemma if_m_gt_fixed (d depth : nat) (t : Z) (w : str) (k : Z) (new : str)
  (n : Z) :
  0 < k → _m d w (len w - 1) = Some n → (d < depth)%nat → n ≤ t →
  if_m_gt depth t w k new = Some w.
Proof.
  intros Hk Hn Hd Hnt. unfold if_m_gt.
  destruct (m_call_le d depth w k n Hn Hd Hk) as (n' & -> & Hn').
  simpl. destruct (Z.ltb_spec t n'); [lia | done].
Qed.

Lemma if_m_fixed (d depth : nat) (w : str) (k : Z) (new : str) :
  0 < k → _m d w (len w - 1) = Some 0 → (d < depth)%nat →
  if_m depth w k new = Some w.
Proof.
  intros Hk Hn Hd. unfold if_m.
  destruct (m_call_le d depth w k 0 Hn Hd Hk) as (n' & -> & Hn').
  simpl. destruct (Z.eqb_spec n' 0); [done | lia].
Qed.

Ltac fixed_rules :=
  repeat first
    [ lazymatch goal with
      | |- (if is_chr ?c ?a then _ else _) = _ => destruct (is_chr c a)
      | |- (if endswith ?w ?s || endswith ?w ?s' then _ else _) = _ =>
          destruct (endswith w s || endswith w s')
      | |- (if endswith ?w ?s then _ else _) = _ => destruct (endswith w s)
      end
    | reflexivity
    | eapply if_m_gt_fixed; [lia | eassumption | lia | lia]
    | eapply if_m_fixed; [lia | eassumption | lia] ].

Lemma step4_fixed (d depth : nat) (w : str) (n : Z) :
  (1 ≤ length w)%nat → _m d w (len w - 1) = Some n → (d < depth)%nat →
  n ≤ 1 → _step4 depth w = Some w.
Proof.
  intros Hw Hn Hd Hn1. unfold _step4.
  destruct (Z.leb_spec (len w) 1); [done |].
  destruct (index_is_Some w (-2) ltac:(unfold len in *; lia)) as [ch ->].
  simpl. fixed_rules.
Qed.

Lemma step3_fixed (d depth : nat) (w : str) :
  (1 ≤ length w)%nat → _m d w (len w - 1) = Some 0 → (d < depth)%nat →
  _step3 depth w = Some w.
Proof.
  intros Hw Hn Hd. unfold _step3.
  destruct (index_is_Some w (-1) ltac:(unfold len; lia)) as [ch ->].
  simpl. fixed_rules.
Qed.

Lemma step2_fixed (d depth : nat) (w : str) :
  (1 ≤ length w)%nat → _m d w (len w - 1) = Some 0 → (d < depth)%nat →
  _step2 depth w = Some w.
Proof.
  intros Hw Hn Hd. rewrite step2_eq. unfold step2_body.
  destruct (Z.leb_spec (len w) 1); [done |].
  destruct (index_is_Some w (-2) ltac:(unfold len in *; lia)) as [ch ->].
  simpl. fixed_rules.
  destruct (m_call_le d depth w 5 0 Hn Hd ltac:(lia)) as (n' & -> & Hn').
  simpl. destruct (Z.ltb_spec 0 n'); [lia | done].
Qed.

Lemma step5_fixed (d depth : nat) (w : str) :
  (1 ≤ length w)%nat → _m d w (len w - 1) = Some 0 → (d < depth)%nat →
  _step5 depth w = Some w.
Proof.
  intros Hw Hn Hd. unfold _step5.
  destruct (m_call_le d depth w 1 0 Hn Hd ltac:(lia)) as (n' & Hn' & Hle).
  assert (n' = 0) as -> by lia.
  assert (step5_e depth w = Some w) as ->.
  { unfold step5_e.
    destruct (index_is_Some w (-1) ltac:(unfold len; lia)) as [ch ->].
    simpl. rewrite Hn'. simpl. by destruct (is_chr ch "e"). }
  simpl. unfold step5_ll. rewrite Hn'. simpl. by destruct (endswith w "ll").
Qed.

(** X10: a word whose measure is at most 1 leaves stage 4 as it came;
    a word whose measure is 0 leaves each of the stages 2, 3, 4 and 5 as
    it came.  The measure of a word is [_m] up to its last index; a
    stage needs one frame more than [_m] needed to return it. *)
Theorem low_measure_fixed (d depth : nat) (w : str) (n : Z) :
  (1 ≤ length w)%nat →
  _m d w (len w - 1) = Some n →
  (d < depth)%nat →
  (n ≤ 1 → _step4 depth w = Some w)
  ∧ (n = 0 →
     _step2 depth w = Some w ∧ _step3 depth w = Some w
     ∧ _step5 depth w = Some w).
Proof.
  intros Hw Hn Hd. split.
  - intros Hn1. by apply (step4_fixed d depth w n).
  - intros ->. split; [by apply (step2_fixed d) |].
    split; [by apply (step3_fixed d) | by apply (step5_fixed d)].
Qed.

Lemma low_measure_fixed_witness :
  (0 ≤ 1 → _step4 2 "tree" = Some (lit "tree"))
  ∧ (0 = 0 →
     _step2 2 "tree" = Some (lit "tree")
     ∧ _step3 2 "tree" = Some (lit "tree")
     ∧ _step5 2 "tree" = Some (lit "tree")).
Proof.
  apply (low_measure_fixed 1 2 "tree" 0);
    [vm_compute; lia | reflexivity | lia].
Defined.

(** ** [stem_word] on a range *)

Lemma slice_middle (x w y : str) :
  slice (x ++ w ++ y) (Some (len x)) (Some (len x + len w)) = w.
Proof.
  pose proof (len_nonneg x). pose proof (len_nonneg w).
  pose proof (len_nonneg y).
  unfold slice, bound. simpl. rewrite !len_app.
  destruct (Z.ltb_spec (len x) 0); [lia |].
  destruct (Z.ltb_spec (len x + len w) 0); [lia |].
  replace (Z.to_nat (Z.min (Z.max (len x) 0) (len x + (len w + len y))))
    with (length x) by (unfold len in *; lia).
  replace (Z.to_nat (Z.min (Z.max (len x + len w) 0)
                       (len x + (len w + len y))) - length x)%nat
    with (length w) by (unfold len in *; lia).
  by rewrite drop_app_length, take_app_length.
Qed.

Lemma length_slice (s : str) (lo hi : option Z) :
  (length (slice s lo hi) ≤ length s)%nat.
Proof. unfold slice. rewrite length_take, length_drop. lia. Qed.

(** The runs of [y] of a part of a word are no longer than those of the
    word. *)
Lemma max_list_yruns_le (w : str) (r r' : nat) :
  (r ≤ r')%nat → (max_list (yruns r w) ≤ max_list (yruns r' w))%nat.
Proof.
  revert r r'. induction w as [| c w IH]; intros r r' Hr; [done |].
  simpl. destruct (is_chr c "y").
  - pose proof (IH (S r) (S r') ltac:(lia)). lia.
  - done.
Qed.

Lemma longest_yrun_app_r (x w : str) (r : nat) :
  (longest_yrun w ≤ max_list (yruns r (x ++ w)))%nat.
Proof.
  revert r. induction x as [| c x IH]; intros r.
  - apply max_list_yruns_le. lia.
  - simpl. pose proof (IH (if is_chr c "y" then S r else 0%nat)). lia.
Qed.

Lemma max_list_yruns_take (w : str) (n r : nat) :
  (max_list (yruns r (take n w)) ≤ max_list (yruns r w))%nat.
Proof.
  revert n r. induction w as [| c w IH]; intros n r.
  - by rewrite take_nil.
  - destruct n as [| n]; [simpl; lia |]. simpl.
    pose proof (IH n (if is_chr c "y" then S r else 0%nat)). lia.
Qed.

Lemma longest_yrun_slice (s : str) (lo hi : option Z) :
  (longest_yrun (slice s lo hi) ≤ longest_yrun s)%nat.
Proof.
  unfold slice. cbv zeta. etrans; [apply max_list_yruns_take |].
  set (a := from_option (bound s) 0%nat lo).
  pose proof (longest_yrun_app_r (take a s) (drop a s) 0) as H.
  by rewrite take_drop in H.
Qed.

(** [stem_word] on a range is [stem] of the slice it takes. *)
Lemma stem_word_slice_of (depth : nat) (p : str) (i : Z) (j : option Z) :
  ∃ word,
    stem_word depth p i j = stem depth word
    ∧ (length word ≤ length p)%nat
    ∧ (longest_yrun word ≤ longest_yrun p)%nat.
Proof.
  destruct j as [j |]; [| destruct (i =? 0) eqn:E].
  - exists (slice p (Some i) (Some (j + 1))).
    split; [done |]. split; [apply length_slice | apply longest_yrun_slice].
  - exists p. split; [| done].
    unfold stem_word, stem_word_with. by rewrite E.
  - exists (slice p (Some i) (Some (len p - 1 + 1))).
    split; [| split; [apply length_slice | apply longest_yrun_slice]].
    unfold stem, stem_word, stem_word_with. by rewrite E.
Qed.

(** X11: [stem_word] returns, whatever the range, on every string whose
    longest run of [y] is at least four less than the frames left, and
    whatever it returns, with any number of frames, is no longer than
    the string.  On the range of a word inside a longer string it does
    what [stem] does on that word, with [j] given or left out for a word
    that ends the string.  With [j = -1] the range is empty, not the
    whole string: the result is the empty string. *)
Theorem stem_word_ranges :
  (∀ (depth : nat) (p : str) (i : Z) (j : option Z),
     (longest_yrun p + 4 ≤ depth)%nat →
     ∃ r, stem_word depth p i j = Some r ∧ (length r ≤ length p)%nat)
  ∧ (∀ (depth : nat) (p r : str) (i : Z) (j : option Z),
       stem_word depth p i j = Some r → (length r ≤ length p)%nat)
  ∧ (∀ (depth : nat) (x w y : str),
       stem_word depth (x ++ w ++ y) (len x) (Some (len x + len w - 1))
       = stem depth w)
  ∧ (∀ (depth : nat) (x w : str),
       stem_word depth (x ++ w) (len x) None = stem depth w)
  ∧ (∀ (depth : nat) (p : str), stem_word depth p 0 (Some (-1)) = Some []).
Proof.
  split.
  { intros depth p i j Hd.
    destruct (stem_word_slice_of depth p i j) as (word & -> & Hl & Hy).
    destruct (stem_total depth word) as (r & -> & Hr); [lia |].
    exists r. split; [done | lia]. }
  split.
  { intros depth p r i j.
    destruct (stem_word_slice_of depth p i j) as (word & -> & Hl & _).
    intros Hr%stem_length. lia. }
  split.
  { intros depth x w y. unfold stem_word at 1, stem_word_with.
    replace (len x + len w - 1 + 1) with (len x + len w) by lia.
    by rewrite slice_middle. }
  split.
  { intros depth x w. unfold stem_word at 1, stem_word_with.
    destruct (Z.eqb_spec (len x) 0) as [E | E].
    - destruct x; [done | unfold len in E; simpl in E; lia].
    - replace (len (x ++ w) - 1 + 1) with (len x + len w)
        by (rewrite len_app; lia).
      pose proof (slice_middle x w []) as H. rewrite app_nil_r in H.
      by rewrite H. }
  intros depth p. unfold stem_word, stem_word_with.
  replace (slice p (Some 0) (Some (-1 + 1))) with (@nil N); [done |].
  unfold slice, bound. simpl. pose proof (len_nonneg p).
  rewrite Z.min_l by lia. simpl. by rewrite take_0.
Qed.

(** ** The stem of a word is not empty *)

Lemma pool_nonempty (w s : str) : pool !! w = Some s → s ≠ [].
Proof.
  intros E%pool_lookup. unfold irregular_table in E.
  repeat (apply elem_of_cons in E as [E | E];
          [injection E as -> ->; discriminate |]).
  by apply elem_of_nil in E.
Qed.

Lemma stem_total_nonempty (depth : nat) (w : str) :
  w ≠ [] → (longest_yrun w + 4 ≤ depth)%nat →
  ∃ r, stem depth w = Some r ∧ r ≠ [].
Proof.
  intros Hw Hd. unfold stem, stem_word. rewrite stem_word_with_whole.
  destruct (pool !! w) as [s |] eqn:E.
  { exists s. split; [done | by eapply pool_nonempty]. }
  destruct (Z.leb_spec (len w) 2); [by exists w |].
  destruct (pipeline_shorter (longest_yrun w) depth w)
    as (r & -> & Hr & _); [by apply classifies_yrun | done | |].
  { unfold len in *. lia. }
  exists r. split; [done |]. intros ->. simpl in Hr. lia.
Qed.

(** X12: [stem_word] called on a whole word that is not empty, with the
    range left out, returns when the longest run of [y] of the word is
    at least four less than the frames left, and what it returns, with
    any number of frames, is not empty.  (On a range it can be: with
    [j = -1] the result is the empty string.) *)
Theorem stem_nonempty (depth : nat) (w : str) :
  w ≠ [] →
  ((longest_yrun w + 4 ≤ depth)%nat → ∃ r, stem depth w = Some r ∧ r ≠ [])
  ∧ (∀ r, stem depth w = Some r → r ≠ []).
Proof.
  intros Hw. split; [by apply stem_total_nonempty |]. intros r Hr.
  destruct (stem_total_nonempty (Nat.max depth (longest_yrun w + 4)) w)
    as (r' & Hr' & Hne); [done | lia |].
  by rewrite (stem_only _ _ _ _ _ Hr' Hr).
Qed.

Lemma stem_nonempty_witness :
  ((longest_yrun "aed" + 4 ≤ 4)%nat → ∃ r, stem 4 "aed" = Some r ∧ r ≠ [])
  ∧ (∀ r, stem 4 "aed" = Some r → r ≠ []).
Proof. apply (stem_nonempty 4 "aed"). discriminate. Defined.

(** ** The stems of the table are stems of themselves *)

(** X13: every stem that [self.pool] maps a surface form to is left
    unchanged by [stem_word], as soon as three frames are left: stemming
    the stem of an irregular form again gives the same stem.  The
    surface form itself needs no frame. *)
Theorem pool_stems_fixed (depth : nat) (w s : str) :
  pool !! w = Some s →
  (3 ≤ depth)%nat →
  stem depth s = Some s ∧ ∀ d : nat, stem d w = Some s.
Proof.
  intros E Hd. split.
  - apply (stem_from 3); [| done].
    apply pool_lookup in E. unfold irregular_table in E.
    repeat (apply elem_of_cons in E as [E | E];
            [injection E as -> ->; vm_compute; reflexivity |]).
    by apply elem_of_nil in E.
  - intros d. unfold stem, stem_word. by rewrite stem_word_with_whole, E.
Qed.

Lemma pool_stems_fixed_witness :
  stem 3 "die" = Some (lit "die")
  ∧ ∀ d : nat, stem d "dying" = Some (lit "die").
Proof.
  apply (pool_stems_fixed 3 "dying" "die"); [vm_compute; reflexivity | lia].
Defined.

(** ** [fart] on a token and on a sentence *)

(** The method returns, whatever [lower] does to the token, when the
    longest run of [y] of the lowercased token is at least five less
    than the frames left. *)
Lemma fart_total (lower : str → str) (depth : nat) (word : str) :
  (longest_yrun (lower word) + 5 ≤ depth)%nat →
  ∃ r, fart lower depth word = Some r
       ∧ (r = word ∨ ∃ st, r = st ++ "fart").
Proof.
  intros Hd. destruct depth as [| e]; [lia |]. unfold fart.
  rewrite call_S.
  destruct (stem_word_slice_of e (lower word) 0 (Some (len word - 1)))
    as (w & -> & _ & Hy).
  destruct (stem_total e w) as (st & -> & _); [lia |]. simpl.
  case_bool_decide; eauto.
Qed.

Lemma split_from_word (isspace : char → bool) (w piece rest : str) :
  Forall (λ c, isspace c = false) w →
  split_from isspace piece (w ++ rest)
  = split_from isspace (reverse w ++ piece) rest.
Proof.
  intros Hw. revert piece.
  induction Hw as [| c w Hc _ IH]; intros piece; [done |].
  simpl. rewrite Hc, IH, reverse_cons, <- app_assoc. done.
Qed.

Lemma split_join (isspace : char → bool) (ws : list str) :
  isspace (chr " ") = true →
  Forall (λ w, w ≠ [] ∧ Forall (λ c, isspace c = false) w) ws →
  split isspace (join " " ws) = ws.
Proof.
  intros Hsp Hws. unfold split.
  induction Hws as [| w ws [Hne Hw] Hws IH]; [done |].
  assert (reverse w ≠ []) as Hrev.
  { intros H%(f_equal length). rewrite length_reverse in H.
    by destruct w. }
  destruct ws as [| w2 ws].
  - simpl. rewrite <- (app_nil_r w) at 1.
    rewrite split_from_word, app_nil_r by done. simpl.
    rewrite decide_False by done. by rewrite reverse_involutive.
  - change (join " " (w :: w2 :: ws))
      with (w ++ chr " " :: join " " (w2 :: ws)).
    rewrite split_from_word, app_nil_r by done. cbn [split_from].
    rewrite Hsp, decide_False by done.
    by rewrite reverse_involutive, IH.
Qed.

(** The pieces [split] returns are not empty and hold no whitespace. *)
Lemma split_from_pieces (isspace : char → bool) (sentence piece : str) :
  Forall (λ c, isspace c = false) piece →
  Forall (λ w, w ≠ [] ∧ Forall (λ c, isspace c = false) w)
    (split_from isspace piece sentence).
Proof.
  revert piece. induction sentence as [| c sentence IH]; intros piece Hp.
  - simpl. case_decide as E; [done |]. apply Forall_singleton. split.
    + intros H%(f_equal length). rewrite length_reverse in H.
      by destruct piece.
    + by apply Forall_reverse.
  - simpl. destruct (isspace c) eqn:Hc.
    + case_decide as E; [by apply IH |]. apply Forall_cons. split.
      * split.
        -- intros H%(f_equal length). rewrite length_reverse in H.
           by destruct piece.
        -- by apply Forall_reverse.
      * by apply IH.
    + apply IH. by apply Forall_cons.
Qed.

Lemma split_whitespace (isspace : char → bool) (sentence : str) :
  Forall (λ c, isspace c = true) sentence → split isspace sentence = [].
Proof.
  unfold split. induction 1 as [| c sentence Hc _ IH]; [done |].
  simpl. by rewrite Hc.
Qed.

Lemma mapM_fart_total (lower : str → str) (depth : nat) (ws : list str) :
  Forall (λ w, (longest_yrun (lower w) + 5 ≤ depth)%nat) ws →
  ∃ rs, mapM (fart lower depth) ws = Some rs ∧ length rs = length ws.
Proof.
  intros Hws.
  destruct (mapM_is_Some_2 (fart lower depth) ws) as [rs Hrs].
  { eapply Forall_impl; [exact Hws |]. intros w Hw. simpl.
    destruct (fart_total lower depth w Hw) as (r & Hr & _). by exists r. }
  exists rs. split; [done |]. symmetry. by eapply length_mapM.
Qed.

(** [fart(sentence)] with one frame for [FartStemmer()] and for each
    call of the method. *)
Lemma fart_sentence_S (lower : str → str) (isspace : char → bool)
  (depth : nat) (sentence : str) :
  fart_sentence lower isspace (S depth) sentence
  = res ← mapM (fart lower depth) (split isspace sentence);
    Some (join " " res).
Proof. reflexivity. Qed.

(** X14: the module's [fart(sentence)] returns when, for every piece of
    the sentence, the longest run of [y] of the lowercased piece is at
    least six less than the frames left.  It hands [fart] only pieces
    that are not empty and hold no whitespace, and a sentence of
    whitespace alone, the empty one included, gives the empty string, as
    soon as there is a frame for [FartStemmer()]. *)
Theorem fart_sentence_total :
  (∀ (lower : str → str) (isspace : char → bool) (depth : nat)
     (sentence : str),
     Forall (λ w, (longest_yrun (lower w) + 5 ≤ depth)%nat)
       (split isspace sentence) →
     ∃ rs r, mapM (fart lower depth) (split isspace sentence) = Some rs
             ∧ fart_sentence lower isspace (S depth) sentence = Some r
             ∧ r = join " " rs)
  ∧ (∀ (isspace : char → bool) (sentence : str),
       Forall (λ w, w ≠ [] ∧ Forall (λ c, isspace c = false) w)
         (split isspace sentence))
  ∧ (∀ (lower : str → str) (isspace : char → bool) (depth : nat)
       (sentence : str),
       Forall (λ c, isspace c = true) sentence →
       fart_sentence lower isspace (S depth) sentence = Some []).
Proof.
  split.
  { intros lower isspace depth sentence Hd. rewrite fart_sentence_S.
    destruct (mapM_fart_total lower depth (split isspace sentence) Hd)
      as (rs & -> & _).
    by exists rs, (join " " rs). }
  split.
  { intros isspace sentence. by apply split_from_pieces. }
  intros lower isspace depth sentence Hs. rewrite fart_sentence_S.
  by rewrite split_whitespace.
Qed.

(** X15: when the space is whitespace, a sentence made of tokens joined
    by single spaces, each token not empty and free of whitespace, is
    split into these tokens; and when the longest run of [y] of each
    lowercased token is at least six less than the frames left, the
    result is what [fart] makes of the tokens, in order, joined by
    single spaces. *)
Theorem fart_sentence_tokens (lower : str → str) (isspace : char → bool)
  (depth : nat) (ws : list str) :
  isspace (chr " ") = true →
  Forall (λ w, w ≠ [] ∧ Forall (λ c, isspace c = false) w) ws →
  Forall (λ w, (longest_yrun (lower w) + 5 ≤ depth)%nat) ws →
  split isspace (join " " ws) = ws
  ∧ ∃ rs, mapM (fart lower depth) ws = Some rs
          ∧ length rs = length ws
          ∧ fart_sentence lower isspace (S depth) (join " " ws)
            = Some (join " " rs).
Proof.
  intros Hsp Hws Hd. split; [by apply split_join |].
  destruct (mapM_fart_total lower depth ws Hd) as (rs & Hrs & Hl).
  exists rs. split; [done |]. split; [done |].
  by rewrite fart_sentence_S, split_join, Hrs.
Qed.

Lemma fart_sentence_tokens_witness :
  split (λ c, bool_decide (c = chr " "))
    (join " " [lit "The"; lit "cats"; lit "agreed"])
  = [lit "The"; lit "cats"; lit "agreed"]
  ∧ ∃ rs, mapM (fart ascii_lower 5) [lit "The"; lit "cats"; lit "agreed"]
          = Some rs
          ∧ length rs = length [lit "The"; lit "cats"; lit "agreed"]
          ∧ fart_sentence ascii_lower (λ c, bool_decide (c = chr " ")) 6
              (join " " [lit "The"; lit "cats"; lit "agreed"])
            = Some (join " " rs).
Proof.
  apply (fart_sentence_tokens ascii_lower (λ c, bool_decide (c = chr " "))
           5 [lit "The"; lit "cats"; lit "agreed"]).
  - reflexivity.
  - repeat first
      [ apply Forall_nil_2 | apply Forall_cons_2 | split | discriminate
      | reflexivity ].
  - repeat first
      [ apply Forall_nil_2 | apply Forall_cons_2 | vm_compute; lia ].
Defined.

Example fart_sentence_demo :
  fart_sentence ascii_lower (λ c, bool_decide (c = chr " ")) 1000
    "  The cats  agreed "
  = Some (lit "The catfart agrefart").
Proof. vm_compute. reflexivity. Qed.

(** ** Single rules, on every word they apply to *)

Lemma chop_lit (x : str) (k : Z) (t keep cut : string) :
  lit t = lit keep ++ lit cut → k = len (lit cut) → 0 < k →
  chop k (x ++ lit t) = x ++ lit keep.
Proof. intros -> Hk ?. rewrite app_assoc. by apply chop_app. Qed.

Lemma step1ab_verbal_i (depth : nat) (x : str) :
  step1ab_verbal depth (x ++ "i") = Some (x ++ "i", false)
  ∧ step1ab_verbal depth (x ++ "ie") = Some (x ++ "ie", false).
Proof. unfold step1ab_verbal. split; by eval_endswith. Qed.

(** X16: stage 1ab turns a word in [ies] or in [ied] into the same word
    in [ie] when it has four characters, and into the same word in [i]
    otherwise ("ties" gives "tie", "ponies" gives "poni", "ies" gives
    "i"); it makes no call for it, and so does it with any number of
    frames. *)
Theorem step1ab_ies (depth : nat) (x : str) :
  _step1ab depth (x ++ "ies")
  = Some (if bool_decide (length x = 1%nat) then x ++ "ie" else x ++ "i")
  ∧ _step1ab depth (x ++ "ied")
    = Some (if bool_decide (length x = 1%nat) then x ++ "ie" else x ++ "i").
Proof.
  destruct (step1ab_verbal_i depth x) as [Hi Hie].
  unfold _step1ab, step1ab_plural. split.
  - rewrite (index_app_lit x (-1) "ies" (chr "s")) by done.
    simpl. eval_endswith. rewrite len_app. eval_lits.
    rewrite (chop_lit x 1 "ies" "ie" "s"), (chop_lit x 2 "ies" "i" "es")
      by done.
    case_bool_decide as E;
      (destruct (Z.eqb_spec (len x + 3) 4) as [E' | E']; [| ]);
      unfold len in *; try lia; simpl.
    + by rewrite Hie.
    + by rewrite Hi.
  - rewrite (index_app_lit x (-1) "ied" (chr "d")) by done.
    simpl. eval_lits. simpl. unfold step1ab_verbal. eval_endswith.
    rewrite len_app. eval_lits.
    rewrite (chop_lit x 1 "ied" "ie" "d"), (chop_lit x 2 "ied" "i" "ed")
      by done.
    case_bool_decide as E;
      (destruct (Z.eqb_spec (len x + 3) 4) as [E' | E']; [| ]);
      unfold len in *; try lia; done.
Qed.

Lemma has_class_vowel (w : str) (i : Z) (c : char) :
  index w i = Some c → c ∈ vowels → has_class w i Vowel.
Proof.
  intros Hc Hv. exists 0%nat. apply classify_Vowel.
  rewrite cons_eq, Hc. simpl. by rewrite bool_decide_eq_true_2.
Qed.

Lemma vowelinstem_true (depth : nat) (w : str) (i : Z) (c : char) :
  (2 ≤ depth)%nat →
  0 ≤ i → index w i = Some c → c ∈ vowels →
  _vowelinstem depth w = Some true.
Proof.
  intros Hd Hi Hc Hv. unfold _vowelinstem.
  destruct (vowel_scan_spec depth w (length w) Hd 0)
    as (b & Hb & Hiff); [done | done | intros j Hj; lia |].
  etrans; [exact Hb |]. f_equal. apply Hiff. exists i.
  split; [| by eapply has_class_vowel].
  split; [done |].
  rewrite index_nonneg in Hc by done. apply lookup_lt_Some in Hc.
  unfold len. lia.
Qed.

Lemma index_app_first (x : str) (t : string) (c : char) :
  lit t !! 0%nat = Some c → index (x ++ lit t) (len x) = Some c.
Proof.
  intros H. pose proof (len_nonneg x). rewrite index_nonneg by done.
  unfold len. rewrite Nat2Z.id, lookup_app_r by done.
  by rewrite Nat.sub_diag.
Qed.

(** The block run on a trimmed word, on a word in [at] or in [iz]. *)
Lemma step1ab_trimmed_e (depth : nat) (x : str) :
  step1ab_trimmed depth (x ++ "at") = Some (x ++ "ate")
  ∧ step1ab_trimmed depth (x ++ "iz") = Some (x ++ "ize").
Proof.
  unfold step1ab_trimmed. split; eval_endswith; simpl;
    by rewrite <- app_assoc.
Qed.

(** X17: stage 1ab turns every word in [ated] or [ating] into the same
    word in [ate], and every word in [ized] or [izing] into the same
    word in [ize], as soon as three frames are left, for
    [_vowelinstem] and the two of [_cons]: the [a] or [i] of the ending
    is the vowel the stem needs, and the [e] is put back after [at] and
    [iz]. *)
Theorem step1ab_ate_ize (depth : nat) (x : str) :
  (3 ≤ depth)%nat →
  _step1ab depth (x ++ "ated") = Some (x ++ "ate")
  ∧ _step1ab depth (x ++ "ating") = Some (x ++ "ate")
  ∧ _step1ab depth (x ++ "ized") = Some (x ++ "ize")
  ∧ _step1ab depth (x ++ "izing") = Some (x ++ "ize").
Proof.
  intros Hd. destruct depth as [| e]; [lia |].
  destruct (step1ab_trimmed_e (S e) x) as [Hat Hiz].
  assert (_vowelinstem e (x ++ "at") = Some true) as Hvat.
  { apply (vowelinstem_true _ _ (len x) (chr "a"));
      [lia | apply len_nonneg | by apply index_app_first |].
    apply (bool_decide_eq_true_1 _). vm_compute. reflexivity. }
  assert (_vowelinstem e (x ++ "iz") = Some true) as Hviz.
  { apply (vowelinstem_true _ _ (len x) (chr "i"));
      [lia | apply len_nonneg | by apply index_app_first |].
    apply (bool_decide_eq_true_1 _). vm_compute. reflexivity. }
  unfold _step1ab, step1ab_plural, step1ab_verbal. unfold call.
  repeat split.
  - rewrite (index_app_lit x (-1) "ated" (chr "d")) by done.
    simpl. eval_lits. simpl. eval_endswith.
    rewrite (chop_lit x 2 "ated" "at" "ed") by done.
    rewrite Hvat. simpl. exact Hat.
  - rewrite (index_app_lit x (-1) "ating" (chr "g")) by done.
    simpl. eval_lits. simpl. eval_endswith. simpl.
    rewrite (chop_lit x 3 "ating" "at" "ing") by done.
    rewrite Hvat. simpl. exact Hat.
  - rewrite (index_app_lit x (-1) "ized" (chr "d")) by done.
    simpl. eval_lits. simpl. eval_endswith.
    rewrite (chop_lit x 2 "ized" "iz" "ed") by done.
    rewrite Hviz. simpl. exact Hiz.
  - rewrite (index_app_lit x (-1) "izing" (chr "g")) by done.
    simpl. eval_lits. simpl. eval_endswith. simpl.
    rewrite (chop_lit x 3 "izing" "iz" "ing") by done.
    rewrite Hviz. simpl. exact Hiz.
Qed.

Lemma step1ab_ate_ize_witness :
  _step1ab 3 (lit "cre" ++ "ated") = Some (lit "cre" ++ "ate")
  ∧ _step1ab 3 (lit "cre" ++ "ating") = Some (lit "cre" ++ "ate")
  ∧ _step1ab 3 (lit "cre" ++ "ized") = Some (lit "cre" ++ "ize")
  ∧ _step1ab 3 (lit "cre" ++ "izing") = Some (lit "cre" ++ "ize").
Proof. apply (step1ab_ate_ize 3 "cre"). lia. Defined.

(** X18: the [logi] rule of stage 2 measures the word up to the [l] of
    the suffix, not up to the character before the suffix: a word in
    [logi] loses its [i] exactly when the part before [ogi] has a measure
    other than 0 ("ologi" gives "olog", though the measure of "o" is
    0), and stage 2 raises when [_m] does.  [_m] returns there when the
    longest run of [y] of the word is less than the frames left to
    it. *)
Theorem step2_logi (depth : nat) (x : str) :
  _step2 (S depth) (x ++ "logi")
  = (n ← _m depth (x ++ "l") (len (x ++ "l") - 1);
     Some (if n =? 0 then x ++ "logi" else x ++ "log"))
  ∧ ((longest_yrun x < depth)%nat →
     is_Some (_m depth (x ++ "l") (len (x ++ "l") - 1))).
Proof.
  pose proof (len_nonneg x). split.
  - rewrite step2_eq. unfold step2_body.
    destruct (Z.leb_spec (len (x ++ "logi")) 1) as [Hl | _].
    { rewrite len_app in Hl. change (len "logi") with 4 in Hl. lia. }
    rewrite (index_app_lit x (-2) "logi" (chr "g")) by done.
    simpl. eval_lits. eval_endswith. unfold if_m. rewrite call_S.
    rewrite (chop_lit x 1 "logi" "log" "i") by done.
    replace (len (x ++ "logi") - 4) with (len (x ++ "l") - 1)
      by (rewrite !len_app; eval_lits; lia).
    change (lit "logi") with (lit "l" ++ lit "ogi"). rewrite app_assoc.
    rewrite m_app by (rewrite len_app; eval_lits; lia).
    destruct (_m depth (x ++ "l") _) as [n |]; [simpl | done].
    rewrite <- app_assoc. reflexivity.
  - intros Hd.
    destruct (m_total (longest_yrun x) depth (x ++ "l")
                (len (x ++ "l") - 1)) as (n & Hn & _);
      [| done | lia | by exists n].
    apply classifies_app; [by apply classifies_yrun | y_free].
Qed.

Example step2_ologi :
  _m 1000 "o" 0 = Some 0 ∧ _step2 1000 "ologi" = Some (lit "olog").
Proof. split; vm_compute; reflexivity. Qed.
